(** * Asaphus coding challenge: the box game

    A shallow embedding of [asaphus_coding_challenge.cpp] and the proofs of
    its specification.

    Modelling conventions.
    - The C++ [double] is IEEE 754 binary64.  It is modelled by Rocq's
      primitive [float], the same format with the same rounding
      (to nearest, ties to even), so the additions, multiplications,
      divisions and comparisons below are the program's.
    - [std::pow] belongs to the C library, not to the repository, and is
      not bound to round correctly.  The value of the green score is
      therefore also stated for an arbitrary [pow]
      ([GreenBox.calculateScore_with]); the game is run with [pow2], the
      correctly rounded square, which is exact on the squares the
      repository's tests take (of 1, 3, 4.5, 7.5 and 10).
    - A [uint32_t] is a [Z] reduced modulo [2^32].
    - A [std::vector] is a [list] in insertion order; an iterator into it is
      an index.
    - [std::cout] is not modelled. *)

From Stdlib Require Import ZArith List Bool Lia Uint63 Floats Permutation.
Import ListNotations.

Local Open Scope float_scope.

(** * Part I: the program *)

(** ** Numbers *)

Abbreviation double := float.

(** A [uint32_t] holds its value modulo [2^32]. *)
Definition uint32_wrap (z : Z) : Z := (z mod 2 ^ 32)%Z.

(** The implicit conversion [uint32_t -> double] at the call
    [absorb(input_weight)]. *)
Definition double_of_uint32 (w : Z) : double :=
  PrimFloat.of_uint63 (Uint63.of_Z (uint32_wrap w)).

(** The implicit conversion [size_t -> double] in [sum / vec.size()]. *)
Definition double_of_size (n : nat) : double :=
  PrimFloat.of_uint63 (Uint63.of_Z (Z.of_nat n)).

(** [std::pow(x, 2)], rounded correctly. *)
Definition pow2 (x : double) : double := x * x.

(** ** <algorithm> and <numeric> *)

Section Algorithms.
Context {A : Type}.
Variable comp : A -> A -> bool.

(** [std::min_element(first, last, comp)], as an index into the range:
    the candidate starts at the first element and is replaced by a later
    element only when that one compares strictly less. *)
Fixpoint min_element_loop (smallest : nat) (vs : A) (first : nat) (l : list A) : nat :=
  match l with
  | [] => smallest
  | x :: l' =>
      if comp x vs then min_element_loop first x (S first) l'
      else min_element_loop smallest vs (S first) l'
  end.

Definition min_element (l : list A) : nat :=
  match l with
  | [] => 0%nat
  | x :: l' => min_element_loop 0%nat x 1%nat l'
  end.

(** [std::max_element]: the candidate is replaced when it compares
    strictly less than a later element. *)
Fixpoint max_element_loop (largest : nat) (vl : A) (first : nat) (l : list A) : nat :=
  match l with
  | [] => largest
  | x :: l' =>
      if comp vl x then max_element_loop first x (S first) l'
      else max_element_loop largest vl (S first) l'
  end.

Definition max_element (l : list A) : nat :=
  match l with
  | [] => 0%nat
  | x :: l' => max_element_loop 0%nat x 1%nat l'
  end.
End Algorithms.

(** [std::accumulate(first, last, init)]. *)
Definition accumulate (l : list double) (init : double) : double :=
  fold_left PrimFloat.add l init.

(** ** Boxes *)

Inductive BoxKind := Green | Blue.

(** Both subclasses carry the same state: [Box::weight_] and their own
    [absorbed_weights_]; [kind] is the dynamic type. *)
Record Box := mkBox {
  kind : BoxKind;
  weight_ : double;
  absorbed_weights_ : list double
}.

Definition makeGreenBox (initial_weight : double) : Box := mkBox Green initial_weight [].
Definition makeBlueBox (initial_weight : double) : Box := mkBox Blue initial_weight [].

(** [Box::operator<]. *)
Definition Box_lt (a b : Box) : bool := (weight_ a <? weight_ b).

Module GreenBox.
Definition mean (vec : list double) : double :=
  accumulate vec 0 / double_of_size (length vec).

Definition meanList (vec : list double) : double :=
  fold_left (fun sum val => sum + val) vec 0 / double_of_size (length vec).

(** [vector(rbegin, rbegin + 3)]: the last three entries, newest first. *)
Definition last_three (vec : list double) : list double := firstn 3 (rev vec).

Definition calculateScore (absorbed : list double) : double :=
  match absorbed with
  | [] => 0
  | _ =>
      if (length absorbed <? 3)%nat then pow2 (meanList absorbed)
      else pow2 (mean (last_three absorbed))
  end.

(** [calculateScore] once more, with [std::pow] left open: [pow] stands for
    the library function, whatever its last bit. *)
Definition calculateScore_with (pow : double -> double -> double)
  (absorbed : list double) : double :=
  match absorbed with
  | [] => 0
  | _ =>
      if (length absorbed <? 3)%nat then pow (meanList absorbed) 2
      else pow (mean (last_three absorbed)) 2
  end.
End GreenBox.

Module BlueBox.
Definition cantorFunction (k1 k2 : double) : double :=
  0.5 * (k1 + k2) * (k1 + k2 + 1) + k2.

Definition calculateScore (absorbed : list double) : double :=
  match absorbed with
  | [] => 0
  | _ =>
      let smallest := nth (min_element PrimFloat.ltb absorbed) absorbed 0 in
      let largest := nth (max_element PrimFloat.ltb absorbed) absorbed 0 in
      cantorFunction smallest largest
  end.
End BlueBox.

(** Virtual dispatch on the dynamic type of the box. *)
Definition calculateScore (b : Box) : double :=
  match kind b with
  | Green => GreenBox.calculateScore (absorbed_weights_ b)
  | Blue => BlueBox.calculateScore (absorbed_weights_ b)
  end.

(** [absorb] of either class: push the weight, add it to [weight_], return
    the score.  The result is the mutated box and the returned value. *)
Definition absorb (b : Box) (weight : double) : Box * double :=
  let b' := mkBox (kind b) (weight_ b + weight) (absorbed_weights_ b ++ [weight]) in
  (b', calculateScore b').

(** ** Players *)

Record Player := mkPlayer { score_ : double }.

Definition newPlayer : Player := mkPlayer 0.

Definition getScore (p : Player) : double := score_ p.

(** Replace the element at index [i]. *)
Fixpoint set_nth {A} (i : nat) (x : A) (l : list A) : list A :=
  match l, i with
  | [], _ => []
  | _ :: l', O => x :: l'
  | y :: l', S i' => y :: set_nth i' x l'
  end.

(** [Player::takeTurn].  The boxes are owned by the vector, so the mutation
    of the selected box is a replacement at its index.  On an empty vector
    the C++ dereferences [end()]; that is [None] here. *)
Definition takeTurn (p : Player) (input_weight : Z) (boxes : list Box)
  : option (Player * list Box) :=
  let smallest_box := min_element Box_lt boxes in
  match nth_error boxes smallest_box with
  | None => None
  | Some b =>
      let '(b', s) := absorb b (double_of_uint32 input_weight) in
      Some (mkPlayer (score_ p + s), set_nth smallest_box b' boxes)
  end.

(** ** The game *)

(** The locals of [play]: the boxes, the two players and the counter [i]
    (a [size_t]; it wraps at [2^64], which keeps its parity, so a [nat]
    serves). *)
Record Game := mkGame {
  boxes : list Box;
  player_A : Player;
  player_B : Player;
  turn : nat
}.

(** Green(0.0), Green(0.1), Blue(0.2), Blue(0.3); the literals are the
    binary64 numbers nearest to 0.1, 0.2 and 0.3. *)
Definition initial_boxes : list Box :=
  [makeGreenBox 0; makeGreenBox 0x1.999999999999ap-4;
   makeBlueBox 0x1.999999999999ap-3; makeBlueBox 0x1.3333333333333p-2].

Definition newGame : Game := mkGame initial_boxes newPlayer newPlayer 0.

Inductive PlayerId := Player_A | Player_B.

(** [i % 2 == 0] selects player A. *)
Definition mover (i : nat) : PlayerId :=
  if Nat.even i then Player_A else Player_B.

(** One iteration of the loop of [play]. *)
Definition step (g : Game) (weight : Z) : option Game :=
  match mover (turn g) with
  | Player_A =>
      match takeTurn (player_A g) weight (boxes g) with
      | Some (p, bs) => Some (mkGame bs p (player_B g) (S (turn g)))
      | None => None
      end
  | Player_B =>
      match takeTurn (player_B g) weight (boxes g) with
      | Some (p, bs) => Some (mkGame bs (player_A g) p (S (turn g)))
      | None => None
      end
  end.

Fixpoint run (g : Game) (input_weights : list Z) : option Game :=
  match input_weights with
  | [] => Some g
  | w :: ws =>
      match step g w with
      | Some g' => run g' ws
      | None => None
      end
  end.

Definition play (input_weights : list Z) : option (double * double) :=
  match run newGame input_weights with
  | Some g => Some (getScore (player_A g), getScore (player_B g))
  | None => None
  end.

(** * Part II: the vocabulary of the specification *)

(** ** Numbers *)

(** Not a NaN. *)
Definition is_num (x : double) : bool := negb (PrimFloat.is_nan x).

(** Greater than or equal to zero (which excludes NaN). *)
Definition nonneg (x : double) : bool := (0 <=? x).

Local Open Scope Z_scope.

(** The standard library specifies the primitive operations on
    [spec_float], the unpacked form of a binary64 number. *)
Abbreviation fexp64 := (SpecFloat.fexp prec emax).

(** Order key of a number: class and sign, then exponent, then mantissa. *)
Definition rank (x : spec_float) : Z * Z * Z :=
  match x with
  | S754_nan => (0, 0, 0)
  | S754_zero _ => (0, 0, 0)
  | S754_infinity s => (if s then -2 else 2, 0, 0)
  | S754_finite s m e => if s then (-1, - e, - Zpos m) else (1, e, Zpos m)
  end.

Definition lt3 (a b : Z * Z * Z) : Prop :=
  let '(a1, a2, a3) := a in
  let '(b1, b2, b3) := b in
  a1 < b1 \/ (a1 = b1 /\ (a2 < b2 \/ (a2 = b2 /\ a3 < b3))).

Definition le3 (a b : Z * Z * Z) : Prop := lt3 a b \/ a = b.

(** Zero of either sign, a positive number or [+infinity]. *)
Definition SFnonneg (x : spec_float) : bool :=
  match x with
  | S754_zero _ => true
  | S754_infinity s => negb s
  | S754_finite s _ _ => negb s
  | S754_nan => false
  end.

(** A number that carries the sign [s]. *)
Definition SFsigned (s : bool) (x : spec_float) : bool :=
  match x with
  | S754_zero s' | S754_infinity s' | S754_finite s' _ _ => Bool.eqb s s'
  | S754_nan => false
  end.

(** Zero, or a positive finite number below [2^K]. *)
Definition SFsmall (K : Z) (x : spec_float) : bool :=
  match x with
  | S754_zero _ => true
  | S754_finite false m e => Zpos (digits2_pos m) + e <=? K
  | _ => false
  end.

(** A number other than [-0]: equal as numbers then means identical. *)
Definition SFplain (x : spec_float) : bool :=
  match x with
  | S754_nan | S754_zero true => false
  | _ => true
  end.

Definition plain (x : double) : bool := SFplain (Prim2SF x).

(** No sticky bit and no round bit: the bits shifted out were zero. *)
Definition shr_exact (mrs : shr_record) : Prop :=
  shr_r mrs = false /\ shr_s mrs = false.

Local Close Scope Z_scope.

(** ** Least and greatest elements *)

(** [x] sits at index [i] of [l], nothing in [l] is smaller and
    everything before [i] is strictly larger. *)
Definition first_least {A} (key : A -> double) (l : list A) (i : nat) (x : A) : Prop :=
  nth_error l i = Some x /\
  (forall y, In y l -> (key x <=? key y) = true) /\
  (forall j y, (j < i)%nat -> nth_error l j = Some y -> (key x <? key y) = true).

Definition first_greatest {A} (key : A -> double) (l : list A) (i : nat) (x : A) : Prop :=
  nth_error l i = Some x /\
  (forall y, In y l -> (key y <=? key x) = true) /\
  (forall j y, (j < i)%nat -> nth_error l j = Some y -> (key y <? key x) = true).

(** ** Boxes *)

(** The score of a green box in the words of the specification: with [n]
    absorbed weights and [k = min(n, 3)], the square of the mean of the
    last [k] of them, taken newest first. *)
Definition mean_of_recent_squared (h : list double) : double :=
  let k := Nat.min (length h) 3 in
  let recent := firstn k (rev h) in
  pow2 (accumulate recent 0 / double_of_size k).

(** The mean of the last [k = min(n, 3)] absorbed weights in the words of
    the specification: their sum, taken newest first from [0.0], divided
    by [k]. *)
Definition mean_of_recent (h : list double) : double :=
  let k := Nat.min (length h) 3 in
  fold_left PrimFloat.add (firstn k (rev h)) 0 /
  PrimFloat.of_uint63 (Uint63.of_Z (Z.of_nat k)).

(** A sequence of [absorb] calls on one box. *)
Definition absorb_all (b : Box) (ws : list double) : Box :=
  fold_left (fun b w => fst (absorb b w)) ws b.

(** ** The game *)

Definition player_of (id : PlayerId) (g : Game) : Player :=
  match id with Player_A => player_A g | Player_B => player_B g end.

Definition other (id : PlayerId) : PlayerId :=
  match id with Player_A => Player_B | Player_B => Player_A end.

(** Who took each turn of a run, in order. *)
Fixpoint movers (g : Game) (ws : list Z) : list PlayerId :=
  match ws with
  | [] => []
  | w :: ws' =>
      match step g w with
      | Some g' => mover (turn g) :: movers g' ws'
      | None => []
      end
  end.

Definition PlayerId_eqb (a b : PlayerId) : bool :=
  match a, b with
  | Player_A, Player_A | Player_B, Player_B => true
  | _, _ => false
  end.

Definition turns_taken (id : PlayerId) (ms : list PlayerId) : nat :=
  length (filter (PlayerId_eqb id) ms).

(** What holds of the box built as [b0] at any point of a game. *)
Definition box_ok (b0 b : Box) : Prop :=
  kind b = kind b0 /\
  weight_ b = accumulate (absorbed_weights_ b) (weight_ b0) /\
  nonneg (weight_ b) = true /\
  Forall (fun x => nonneg x = true) (absorbed_weights_ b).

(** The invariant of the loop of [play]. *)
Definition Inv (g : Game) : Prop :=
  Forall2 box_ok initial_boxes (boxes g) /\
  nonneg (score_ (player_A g)) = true /\
  nonneg (score_ (player_B g)) = true.

(** ** Further vocabulary *)

(** Neither box is lighter than the other. *)
Definition Box_equiv (a b : Box) : bool := negb (Box_lt a b) && negb (Box_lt b a).

(** Every weight absorbed so far, box after box. *)
Definition all_absorbed (g : Game) : list double :=
  concat (map absorbed_weights_ (boxes g)).

(** The value [absorb] returns in the turn that plays [weight]. *)
Definition turn_score (g : Game) (weight : Z) : option double :=
  match nth_error (boxes g) (min_element Box_lt (boxes g)) with
  | Some b => Some (snd (absorb b (double_of_uint32 weight)))
  | None => None
  end.

(** The values [absorb] returned to player [id] during a run, in order. *)
Fixpoint returned_scores (id : PlayerId) (g : Game) (ws : list Z) : list double :=
  match ws with
  | [] => []
  | w :: ws' =>
      match step g w, turn_score g w with
      | Some g', Some s =>
          if PlayerId_eqb id (mover (turn g)) then s :: returned_scores id g' ws'
          else returned_scores id g' ws'
      | _, _ => []
      end
  end.

(** [b'] is [b] after some more absorptions: the same kind, a history that
    extends that of [b], a weight that is not smaller. *)
Definition Box_grows (b b' : Box) : Prop :=
  kind b' = kind b /\
  (exists more, absorbed_weights_ b' = absorbed_weights_ b ++ more) /\
  (weight_ b <=? weight_ b') = true.

(** * Part III: binary64 arithmetic

    Facts about the primitive operations, derived from their
    specification on [spec_float]. *)

Local Open Scope Z_scope.

(** ** The order *)

(** [SFcompare] compares two numbers as it compares their ranks,
    lexicographically. *)
Lemma SFcompare_rank x y :
  x <> S754_nan -> y <> S754_nan ->
  exists c, SFcompare x y = Some c /\
    match c with
    | Lt => lt3 (rank x) (rank y)
    | Eq => rank x = rank y
    | Gt => lt3 (rank y) (rank x)
    end.
Proof.
  intros Hx Hy.
  destruct x as [sx|sx| |sx mx ex], y as [sy|sy| |sy my ey]; try congruence;
    try destruct sx; try destruct sy; cbn [SFcompare rank];
    try (eexists; split; [reflexivity|]; cbn; try reflexivity; lia).
  - destruct (Z.compare_spec ex ey) as [He|He|He].
    + rewrite Pos.compare_cont_spec. cbn [Pos.switch_Eq].
      destruct (Pos.compare_spec mx my) as [Hm|Hm|Hm]; cbn [CompOpp];
        (eexists; split; [reflexivity|]); cbn; subst; try reflexivity; lia.
    + eexists; split; [reflexivity|]; cbn; lia.
    + eexists; split; [reflexivity|]; cbn; lia.
  - destruct (Z.compare_spec ex ey) as [He|He|He].
    + rewrite Pos.compare_cont_spec. cbn [Pos.switch_Eq].
      destruct (Pos.compare_spec mx my) as [Hm|Hm|Hm];
        (eexists; split; [reflexivity|]); cbn; subst; try reflexivity; lia.
    + eexists; split; [reflexivity|]; cbn; lia.
    + eexists; split; [reflexivity|]; cbn; lia.
Qed.

Lemma SFltb_rank x y :
  x <> S754_nan -> y <> S754_nan ->
  (SFltb x y = true <-> lt3 (rank x) (rank y)).
Proof.
  intros Hx Hy. destruct (SFcompare_rank x y Hx Hy) as (c & Hc & Hr).
  unfold SFltb. rewrite Hc.
  destruct (rank x) as [[a1 a2] a3], (rank y) as [[b1 b2] b3].
  destruct c; cbn in *; split; intros H; try discriminate; try reflexivity; try assumption.
  - inversion Hr; lia.
  - lia.
Qed.

Lemma SFleb_rank x y :
  x <> S754_nan -> y <> S754_nan ->
  (SFleb x y = true <-> le3 (rank x) (rank y)).
Proof.
  intros Hx Hy. destruct (SFcompare_rank x y Hx Hy) as (c & Hc & Hr).
  unfold SFleb, le3. rewrite Hc.
  destruct (rank x) as [[a1 a2] a3], (rank y) as [[b1 b2] b3].
  destruct c; cbn in *; split; intros H; try discriminate; try reflexivity; auto.
  destruct H as [H|H]; [lia | inversion H; lia].
Qed.

Lemma SFleb_not_nan x y : SFleb x y = true -> x <> S754_nan /\ y <> S754_nan.
Proof.
  unfold SFleb. destruct x, y; cbn; try discriminate; split; congruence.
Qed.

Lemma SFltb_not_nan x y : SFltb x y = true -> x <> S754_nan /\ y <> S754_nan.
Proof.
  unfold SFltb. destruct x, y; cbn; try discriminate; split; congruence.
Qed.

Local Close Scope Z_scope.

Lemma is_num_spec x : is_num x = true <-> Prim2SF x <> S754_nan.
Proof.
  unfold is_num, PrimFloat.is_nan. rewrite negb_involutive, eqb_spec.
  unfold SFeqb. split.
  - intros H E. rewrite E in H. discriminate.
  - intros H. destruct (SFcompare_rank _ _ H H) as (c & Hc & Hr). rewrite Hc.
    destruct (rank (Prim2SF x)) as [[a1 a2] a3].
    destruct c; cbn in Hr; [reflexivity | lia | lia].
Qed.

(** Turn the comparisons of the context into facts about ranks. *)
Ltac to_rank :=
  repeat match goal with
  | H : is_num _ = true |- _ => apply is_num_spec in H
  end;
  repeat match goal with
  | H : (_ <? _)%float = true |- _ =>
      rewrite ltb_spec in H;
      let H' := fresh in pose proof (SFltb_not_nan _ _ H) as [? ?];
      apply SFltb_rank in H; [|assumption|assumption]
  | H : (_ <=? _)%float = true |- _ =>
      rewrite leb_spec in H;
      let H' := fresh in pose proof (SFleb_not_nan _ _ H) as [? ?];
      apply SFleb_rank in H; [|assumption|assumption]
  end.

Lemma leb_is_num x y : (x <=? y) = true -> is_num x = true /\ is_num y = true.
Proof.
  rewrite leb_spec. intros H. apply SFleb_not_nan in H.
  split; apply is_num_spec; tauto.
Qed.

Lemma leb_refl x : is_num x = true -> (x <=? x) = true.
Proof.
  intros H. apply is_num_spec in H. rewrite leb_spec.
  apply SFleb_rank; auto. right; reflexivity.
Qed.

(** On numbers the order is total. *)
Lemma ltb_false_leb x y :
  is_num x = true -> is_num y = true -> (x <? y) = false -> (y <=? x) = true.
Proof.
  intros Hx Hy H. apply is_num_spec in Hx, Hy.
  rewrite leb_spec. apply SFleb_rank; auto.
  rewrite ltb_spec in H.
  destruct (SFcompare_rank _ _ Hx Hy) as (c & Hc & Hr).
  unfold SFltb in H. rewrite Hc in H.
  destruct c; try discriminate.
  - right. congruence.
  - left. assumption.
Qed.

Lemma lt3_trans a b c : lt3 a b -> lt3 b c -> lt3 a c.
Proof. destruct a as [[? ?] ?], b as [[? ?] ?], c as [[? ?] ?]. cbn. lia. Qed.

Lemma le3_trans a b c : le3 a b -> le3 b c -> le3 a c.
Proof.
  unfold le3. intros [H1|H1] [H2|H2]; subst; auto.
  left. eapply lt3_trans; eauto.
Qed.

Lemma lt3_le3_trans a b c : lt3 a b -> le3 b c -> lt3 a c.
Proof. intros H1 [H2|H2]; subst; auto. eapply lt3_trans; eauto. Qed.

Lemma le3_lt3_trans a b c : le3 a b -> lt3 b c -> lt3 a c.
Proof. intros [H1|H1] H2; subst; auto. eapply lt3_trans; eauto. Qed.

Lemma leb_trans x y z : (x <=? y) = true -> (y <=? z) = true -> (x <=? z) = true.
Proof.
  intros H1 H2. to_rank. rewrite leb_spec. apply SFleb_rank; auto.
  eapply le3_trans; eauto.
Qed.

Lemma ltb_leb_trans x y z : (x <? y) = true -> (y <=? z) = true -> (x <? z) = true.
Proof.
  intros H1 H2. to_rank. rewrite ltb_spec. apply SFltb_rank; auto.
  eapply lt3_le3_trans; eauto.
Qed.

Lemma leb_ltb_trans x y z : (x <=? y) = true -> (y <? z) = true -> (x <? z) = true.
Proof.
  intros H1 H2. to_rank. rewrite ltb_spec. apply SFltb_rank; auto.
  eapply le3_lt3_trans; eauto.
Qed.

Lemma ltb_leb x y : (x <? y) = true -> (x <=? y) = true.
Proof.
  intros H. to_rank. rewrite leb_spec. apply SFleb_rank; auto. left; auto.
Qed.

Local Open Scope Z_scope.

(** ** Rounding *)

Lemma fexp64_eq e : fexp64 e = Z.max (e - 53) (-1074).
Proof. reflexivity. Qed.

Lemma digits2_pos_size p : digits2_pos p = Pos.size p.
Proof. induction p; cbn; congruence. Qed.

(** A mantissa of [d] binary digits lies in [[2^(d-1), 2^d)]. *)
Lemma digits2_pos_bounds p :
  2 ^ (Zpos (digits2_pos p) - 1) <= Zpos p < 2 ^ Zpos (digits2_pos p).
Proof.
  rewrite digits2_pos_size.
  pose proof (Pos.size_gt p) as Hgt. pose proof (Pos.size_le p) as Hle.
  apply Pos2Z.pos_lt_pos in Hgt. apply Pos2Z.pos_le_pos in Hle.
  rewrite Pos2Z.inj_pow in Hgt, Hle.
  split; [|exact Hgt].
  replace (Zpos (Pos.size p)) with (Zpos (Pos.size p) - 1 + 1) in Hle by lia.
  rewrite Z.pow_add_r in Hle by lia.
  change (2 ^ 1) with 2 in Hle. change (Z.pos p~0) with (2 * Z.pos p) in Hle. lia.
Qed.

Lemma Zdigits2_bounds m :
  0 < m -> 2 ^ (Zdigits2 m - 1) <= m < 2 ^ Zdigits2 m.
Proof.
  destruct m as [|p|p]; try lia. intros _. apply digits2_pos_bounds.
Qed.

Lemma Zdigits2_pos m : 0 < m -> 0 < Zdigits2 m.
Proof. destruct m; cbn; lia. Qed.

Lemma Zdigits2_le m k : 0 < m -> m < 2 ^ k -> Zdigits2 m <= k.
Proof.
  intros Hm Hk. destruct (Z.le_gt_cases (Zdigits2 m) k) as [H|H]; [exact H|].
  pose proof (Zdigits2_bounds m Hm) as [Hlo _].
  assert (0 <= k) by (destruct (Z.le_gt_cases 0 k); [lia|rewrite Z.pow_neg_r in Hk; lia]).
  assert (2 ^ k <= 2 ^ (Zdigits2 m - 1)) by (apply Z.pow_le_mono_r; lia).
  lia.
Qed.

(** Shifting right drops the low bits of the mantissa. *)
Lemma shr_1_m mrs : 0 <= shr_m mrs -> shr_m (shr_1 mrs) = shr_m mrs / 2.
Proof.
  destruct mrs as [m r s]. cbn [shr_m]. intros Hm.
  destruct m as [|[p|p|]|p]; cbn [shr_1 shr_m]; try lia; try reflexivity.
  - rewrite (Pos2Z.inj_xI p). apply Z.div_unique with (r := 1); lia.
  - rewrite (Pos2Z.inj_xO p). apply Z.div_unique with (r := 0); lia.
Qed.

(** [n] shifts divide the mantissa by [2^n]. *)
Lemma iter_shr_1_m p : forall mrs,
  0 <= shr_m mrs -> shr_m (iter_pos shr_1 p mrs) = shr_m mrs / 2 ^ Zpos p.
Proof.
  assert (Hnn : forall q mrs, 0 <= shr_m mrs ->
            shr_m (iter_pos shr_1 q mrs) = shr_m mrs / 2 ^ Zpos q ->
            0 <= shr_m (iter_pos shr_1 q mrs)).
  { intros q mrs H E. rewrite E. apply Z.div_pos; lia. }
  induction p as [p IH|p IH|]; intros mrs Hm; cbn [iter_pos].
  - assert (H1 : 0 <= shr_m (shr_1 mrs)) by (rewrite shr_1_m by lia; apply Z.div_pos; lia).
    pose proof (IH _ H1) as E1.
    rewrite IH by (apply Hnn; auto).
    rewrite E1, shr_1_m by lia.
    rewrite !Z.div_div by lia.
    f_equal. rewrite (Pos2Z.inj_xI p).
    replace (2 * Zpos p + 1) with (1 + Zpos p + Zpos p) by lia.
    rewrite !Z.pow_add_r by lia. change (2 ^ 1) with 2. lia.
  - pose proof (IH _ Hm) as E1.
    rewrite IH by (apply Hnn; auto).
    rewrite E1. rewrite Z.div_div by lia.
    f_equal. rewrite (Pos2Z.inj_xO p).
    replace (2 * Zpos p) with (Zpos p + Zpos p) by lia.
    rewrite Z.pow_add_r by lia. reflexivity.
  - apply shr_1_m; assumption.
Qed.

Lemma shr_record_of_loc_m m l : shr_m (shr_record_of_loc m l) = m.
Proof. destruct l as [|[]]; reflexivity. Qed.

(** [shr_fexp] shifts the mantissa to the exponent [fexp] asks for, when
    that is larger. *)
Lemma shr_fexp_spec m e l :
  0 <= m ->
  let n := Z.max 0 (fexp64 (Zdigits2 m + e) - e) in
  shr_m (fst (shr_fexp prec emax m e l)) = m / 2 ^ n /\
  snd (shr_fexp prec emax m e l) = e + n.
Proof.
  intros Hm n. unfold shr_fexp, shr. subst n.
  destruct (fexp64 (Zdigits2 m + e) - e) as [|p|p] eqn:E; cbn [fst snd].
  - rewrite shr_record_of_loc_m. cbn. rewrite Z.div_1_r. lia.
  - rewrite iter_shr_1_m by (rewrite shr_record_of_loc_m; lia).
    rewrite shr_record_of_loc_m.
    replace (Z.max 0 (Zpos p)) with (Zpos p) by lia. auto.
  - rewrite shr_record_of_loc_m.
    replace (Z.max 0 (Zneg p)) with 0 by lia. cbn. rewrite Z.div_1_r. lia.
Qed.

Lemma round_nearest_even_bounds m l :
  m <= round_nearest_even m l <= m + 1.
Proof.
  destruct l as [|[]]; cbn; try lia. destruct (Z.even m); lia.
Qed.

(** Shifting out zero bits leaves the position exact. *)
Lemma shr_1_exact mrs :
  0 <= shr_m mrs -> shr_exact mrs -> (2 | shr_m mrs) -> shr_exact (shr_1 mrs).
Proof.
  destruct mrs as [m r s]. unfold shr_exact. cbn [shr_m shr_r shr_s].
  intros Hm [-> ->] [k Hk].
  destruct m as [|[p|p|]|p]; cbn; auto; lia.
Qed.

Lemma divide_pow2_split m a b :
  0 <= a -> 0 <= b -> (2 ^ (a + b) | m) -> (2 ^ a | m) /\ (2 ^ b | m / 2 ^ a).
Proof.
  intros Ha Hb [k Hk]. rewrite Z.pow_add_r in Hk by lia.
  assert (0 < 2 ^ a) by (apply Z.pow_pos_nonneg; lia).
  split.
  - exists (k * 2 ^ b). lia.
  - exists k. replace m with (k * 2 ^ b * 2 ^ a) by lia.
    rewrite Z.div_mul by lia. reflexivity.
Qed.

Lemma iter_shr_1_exact p : forall mrs,
  0 <= shr_m mrs -> shr_exact mrs -> (2 ^ Zpos p | shr_m mrs) ->
  shr_exact (iter_pos shr_1 p mrs).
Proof.
  induction p as [p IH|p IH|]; intros mrs Hm Hex Hdiv; cbn [iter_pos].
  - rewrite (Pos2Z.inj_xI p) in Hdiv.
    replace (2 * Zpos p + 1) with (1 + (Zpos p + Zpos p)) in Hdiv by lia.
    apply divide_pow2_split in Hdiv; try lia. destruct Hdiv as [D1 D2].
    change (2 ^ 1) with 2 in D1, D2.
    apply divide_pow2_split in D2; try lia. destruct D2 as [D2 D3].
    assert (H1 : 0 <= shr_m (shr_1 mrs)) by (rewrite shr_1_m by lia; apply Z.div_pos; lia).
    assert (H2 : 0 <= shr_m (iter_pos shr_1 p (shr_1 mrs)))
      by (rewrite iter_shr_1_m by lia; apply Z.div_pos; lia).
    apply IH; [exact H2| |].
    + apply IH; [exact H1|apply shr_1_exact; assumption|].
      rewrite shr_1_m by lia. exact D2.
    + rewrite iter_shr_1_m, shr_1_m by lia. exact D3.
  - rewrite (Pos2Z.inj_xO p) in Hdiv.
    replace (2 * Zpos p) with (Zpos p + Zpos p) in Hdiv by lia.
    apply divide_pow2_split in Hdiv; try lia. destruct Hdiv as [D1 D2].
    assert (H2 : 0 <= shr_m (iter_pos shr_1 p mrs))
      by (rewrite iter_shr_1_m by lia; apply Z.div_pos; lia).
    apply IH; [exact H2|apply IH; assumption|].
    rewrite iter_shr_1_m by lia. exact D2.
  - apply shr_1_exact; assumption.
Qed.

Lemma shr_fexp_exact m e :
  0 <= m ->
  (2 ^ Z.max 0 (fexp64 (Zdigits2 m + e) - e) | m) ->
  loc_of_shr_record (fst (shr_fexp prec emax m e loc_Exact)) = loc_Exact.
Proof.
  intros Hm Hdiv. unfold shr_fexp, shr in *.
  destruct (fexp64 (Zdigits2 m + e) - e) as [|p|p]; cbn [fst]; try reflexivity.
  replace (Z.max 0 (Zpos p)) with (Zpos p) in Hdiv by lia.
  destruct (iter_shr_1_exact p (shr_record_of_loc m loc_Exact)) as [Hr Hs];
    try (cbn; auto; fail).
  - cbn. split; reflexivity.
  - destruct (iter_pos shr_1 p _) as [m' r s]. cbn in Hr, Hs. subst. reflexivity.
Qed.

(** What [binary_round_aux] computes on a non-negative mantissa: drop the
    low bits, step up by at most one (not at all when the dropped bits are
    zero), renormalise. *)
Lemma binary_round_aux_spec sx M e l :
  0 <= M ->
  exists n1 m1 n2,
    n1 = Z.max 0 (fexp64 (Zdigits2 M + e) - e) /\
    M / 2 ^ n1 <= m1 <= M / 2 ^ n1 + 1 /\
    (l = loc_Exact -> (2 ^ n1 | M) -> m1 = M / 2 ^ n1) /\
    n2 = Z.max 0 (fexp64 (Zdigits2 m1 + (e + n1)) - (e + n1)) /\
    binary_round_aux prec emax sx M e l =
      match m1 / 2 ^ n2 with
      | Z0 => S754_zero sx
      | Zpos m => if e + n1 + n2 <=? 971 then S754_finite sx m (e + n1 + n2)
                  else S754_infinity sx
      | Zneg _ => S754_nan
      end.
Proof.
  intros HM.
  pose proof (shr_fexp_spec M e l HM) as [E1 E2].
  pose proof (shr_fexp_exact M e HM) as E3.
  unfold binary_round_aux.
  destruct (shr_fexp prec emax M e l) as [mrs' e'] eqn:S1. cbn [fst snd] in E1, E2.
  set (m1 := round_nearest_even (shr_m mrs') (loc_of_shr_record mrs')).
  assert (Hm1 : shr_m mrs' <= m1 <= shr_m mrs' + 1) by apply round_nearest_even_bounds.
  assert (0 <= shr_m mrs') by (rewrite E1; apply Z.div_pos; lia).
  pose proof (shr_fexp_spec m1 e' loc_Exact ltac:(lia)) as [F1 F2].
  destruct (shr_fexp prec emax m1 e' loc_Exact) as [mrs'' e''] eqn:S2.
  cbn [fst snd] in F1, F2.
  exists (Z.max 0 (fexp64 (Zdigits2 M + e) - e)), m1,
    (Z.max 0 (fexp64 (Zdigits2 m1 + e') - e')).
  split; [reflexivity|]. split; [rewrite <- E1; exact Hm1|].
  split.
  { intros -> Hdiv. rewrite S1 in E3. cbn [fst] in E3.
    unfold m1. rewrite (E3 Hdiv), <- E1. reflexivity. }
  split; [rewrite E2; reflexivity|].
  rewrite F1, F2, E2. reflexivity.
Qed.

Lemma pow2_gt0 k : 0 <= k -> 0 < 2 ^ k.
Proof. intros. apply Z.pow_pos_nonneg; lia. Qed.

Lemma div_pow2_top m k :
  0 < m -> k = Zdigits2 m - 53 -> 0 <= k -> 2 ^ 52 <= m / 2 ^ k.
Proof.
  intros Hm Hk Hk0. pose proof (Zdigits2_bounds m Hm) as [Hlo _].
  apply Z.div_le_lower_bound; [apply pow2_gt0; lia|].
  rewrite <- Z.pow_add_r by lia.
  replace (k + 52) with (Zdigits2 m - 1) by lia. exact Hlo.
Qed.

Lemma binary_round_aux_nonneg M e l :
  0 <= M -> SFnonneg (binary_round_aux prec emax false M e l) = true.
Proof.
  intros HM.
  destruct (binary_round_aux_spec false M e l HM)
    as (n1 & m1 & n2 & Hn1 & Hm1 & Hex & Hn2 & ->).
  assert (0 <= M / 2 ^ n1) by (apply Z.div_pos; [lia|apply pow2_gt0; lia]).
  assert (0 <= m1 / 2 ^ n2) by (apply Z.div_pos; [lia|apply pow2_gt0; lia]).
  destruct (m1 / 2 ^ n2); [reflexivity| |lia].
  destruct (_ <=? _); reflexivity.
Qed.

(** The second normalisation keeps a positive mantissa positive. *)
Lemma renorm_pos m1 e1 n2 :
  0 < m1 -> -1074 <= e1 ->
  n2 = Z.max 0 (fexp64 (Zdigits2 m1 + e1) - e1) ->
  0 < m1 / 2 ^ n2 /\ (n2 = 0 \/ 0 < n2).
Proof.
  intros Hm He ->. rewrite fexp64_eq.
  destruct (Z.le_gt_cases (Z.max (Zdigits2 m1 + e1 - 53) (-1074) - e1) 0) as [H|H].
  - replace (Z.max 0 _) with 0 by lia. cbn. rewrite Z.div_1_r. lia.
  - replace (Z.max 0 (Z.max (Zdigits2 m1 + e1 - 53) (-1074) - e1))
      with (Zdigits2 m1 - 53) by lia.
    pose proof (div_pow2_top m1 (Zdigits2 m1 - 53) Hm eq_refl ltac:(lia)).
    assert (0 < 2 ^ 52) by (apply pow2_gt0; lia). lia.
Qed.

(** Rounding a value that is at least a representable number [mx * 2^ex]
    gives at least that number. *)
Lemma binary_round_aux_lower sx M e l mx ex :
  0 < M ->
  fexp64 (Zpos (digits2_pos mx) + ex) = ex ->
  e <= ex ->
  Zpos mx * 2 ^ (ex - e) <= M ->
  binary_round_aux prec emax sx M e l = S754_infinity sx \/
  exists m2 e2,
    binary_round_aux prec emax sx M e l = S754_finite sx m2 e2 /\
    (ex < e2 \/ (e2 = ex /\ (mx <= m2)%positive)).
Proof.
  intros HM Hcan Hle Hval.
  destruct (binary_round_aux_spec sx M e l ltac:(lia))
    as (n1 & m1 & n2 & Hn1 & Hm1 & Hex & Hn2 & ->).
  pose proof (Zdigits2_bounds M HM) as [Hlo Hhi].
  pose proof (Zdigits2_pos M HM) as Hdpos.
  set (d := Zdigits2 M) in *.
  assert (Hp : 0 < 2 ^ (ex - e)) by (apply pow2_gt0; lia).
  (* the digits of [mx] *)
  assert (Hk : 1 <= d + e - ex /\ Zpos mx < 2 ^ (d + e - ex)).
  { destruct (Z.le_gt_cases (d + e - ex) 0) as [H|H].
    - exfalso. assert (2 ^ d <= 2 ^ (ex - e)) by (apply Z.pow_le_mono_r; lia).
      assert (2 ^ (ex - e) <= Zpos mx * 2 ^ (ex - e)) by nia. lia.
    - split; [lia|].
      apply Z.mul_lt_mono_pos_r with (p := 2 ^ (ex - e)); [exact Hp|].
      rewrite <- Z.pow_add_r by lia.
      replace (d + e - ex + (ex - e)) with d by lia. lia. }
  destruct Hk as [Hk1 Hk2].
  assert (Hdx : Zpos (digits2_pos mx) <= d + e - ex)
    by (apply (Zdigits2_le (Zpos mx)); [lia|exact Hk2]).
  rewrite fexp64_eq in Hcan, Hn1.
  assert (Hn1' : n1 = Z.max (d + e - 53) (-1074) - e) by lia.
  set (e1 := e + n1) in *.
  assert (He1 : ex <= e1) by lia.
  assert (Hq : 0 < M / 2 ^ n1 /\ (e1 = ex -> Zpos mx <= M / 2 ^ n1)).
  { destruct (Z.eq_dec e1 ex) as [E|E].
    - assert (Zpos mx <= M / 2 ^ n1).
      { apply Z.div_le_lower_bound; [apply pow2_gt0; lia|].
        replace n1 with (ex - e) by lia. lia. }
      split; [lia|auto].
    - assert (n1 = d - 53) by lia.
      pose proof (div_pow2_top M n1 HM ltac:(lia) ltac:(lia)).
      assert (0 < 2 ^ 52) by (apply pow2_gt0; lia).
      split; [lia|]. intros; lia. }
  destruct Hq as [Hq0 Hq1].
  assert (Hm10 : 0 < m1) by lia.
  destruct (renorm_pos m1 e1 n2 Hm10 ltac:(lia) Hn2) as [Hm2 Hn2'].
  destruct (m1 / 2 ^ n2) as [|m2|m2] eqn:Em2; try lia.
  destruct (e1 + n2 <=? 971); [right|left; reflexivity].
  exists m2, (e1 + n2). split; [reflexivity|].
  destruct Hn2' as [Hz|Hz].
  - rewrite Hz in Em2 |- *. change (2 ^ 0) with 1 in Em2. rewrite Z.div_1_r in Em2.
    destruct (Z.eq_dec e1 ex) as [E|E]; [right|left; lia].
    split; [lia|]. specialize (Hq1 E).
    apply Pos2Z.pos_le_pos. lia.
  - left. lia.
Qed.

(** Rounding keeps the sign and never yields a NaN. *)
Lemma binary_round_aux_signed sx M e l :
  0 <= M -> SFsigned sx (binary_round_aux prec emax sx M e l) = true.
Proof.
  intros HM.
  destruct (binary_round_aux_spec sx M e l HM)
    as (n1 & m1 & n2 & Hn1 & Hm1 & Hex & Hn2 & ->).
  assert (0 <= M / 2 ^ n1) by (apply Z.div_pos; [lia|apply pow2_gt0; lia]).
  assert (0 <= m1 / 2 ^ n2) by (apply Z.div_pos; [lia|apply pow2_gt0; lia]).
  destruct (m1 / 2 ^ n2); [apply eqb_reflx| |lia].
  destruct (_ <=? _); apply eqb_reflx.
Qed.

Lemma binary_normalize_signed z :
  0 <= z -> SFsigned false (binary_normalize prec emax z 0 false) = true.
Proof.
  intros Hz. destruct z as [|m|m]; [reflexivity| |lia].
  cbn [binary_normalize]. unfold binary_round.
  destruct (shl_align m 0 _) as [mz ez].
  apply binary_round_aux_signed. lia.
Qed.

(** ** Addition, multiplication, division *)

Lemma iter_xO_pow m d : Zpos (Pos.iter xO m d) = Zpos m * 2 ^ Zpos d.
Proof.
  induction d as [|d IH] using Pos.peano_ind.
  - cbn. lia.
  - rewrite Pos.iter_succ, Pos2Z.inj_succ, Z.pow_succ_r by lia.
    rewrite (Pos2Z.inj_xO (Pos.iter xO m d)), IH. lia.
Qed.

(** [shl_align] lowers the exponent to [ex'] and keeps the value. *)
Lemma shl_align_spec mx ex ex' :
  snd (shl_align mx ex ex') = Z.min ex ex' /\
  Zpos (fst (shl_align mx ex ex')) = Zpos mx * 2 ^ (ex - Z.min ex ex').
Proof.
  unfold shl_align. destruct (ex' - ex) as [|d|d] eqn:E; cbn [fst snd].
  - replace (Z.min ex ex') with ex by lia. rewrite Z.sub_diag. cbn. lia.
  - replace (Z.min ex ex') with ex by lia. rewrite Z.sub_diag. cbn. lia.
  - replace (Z.min ex ex') with ex' by lia.
    rewrite iter_xO_pow. replace (ex - ex') with (Zpos d) by lia. lia.
Qed.

Lemma valid_binary_canonical s m e :
  valid_binary (S754_finite s m e) = true ->
  fexp64 (Zpos (digits2_pos m) + e) = e /\ e <= 971.
Proof.
  cbn. unfold bounded, canonical_mantissa.
  rewrite andb_true_iff, Z.eqb_eq, Z.leb_le. auto.
Qed.

Lemma binary_round_lower sx m e mx ex :
  fexp64 (Zpos (digits2_pos mx) + ex) = ex ->
  e <= ex ->
  Zpos mx * 2 ^ (ex - e) <= Zpos m ->
  binary_round prec emax sx m e = S754_infinity sx \/
  exists m2 e2,
    binary_round prec emax sx m e = S754_finite sx m2 e2 /\
    (ex < e2 \/ (e2 = ex /\ (mx <= m2)%positive)).
Proof.
  intros Hcan Hle Hval. unfold binary_round.
  pose proof (shl_align_spec m e (fexp64 (Zpos (digits2_pos m) + e))) as [Hs Hf].
  destruct (shl_align m e _) as [mz ez]. cbn [fst snd] in Hs, Hf.
  apply binary_round_aux_lower; try assumption; try lia.
  rewrite Hf.
  assert (ez <= e) by lia.
  replace (ex - ez) with ((ex - e) + (e - ez)) by lia.
  rewrite Z.pow_add_r by lia.
  assert (0 < 2 ^ (e - ez)) by (apply pow2_gt0; lia).
  rewrite <- Hs. nia.
Qed.

Lemma SFcompare_refl x : x <> S754_nan -> SFcompare x x = Some Eq.
Proof.
  destruct x as [s|s| |s m e]; try congruence; intros _; cbn;
    destruct s; try reflexivity;
    rewrite Z.compare_refl, Pos.compare_cont_refl; reflexivity.
Qed.

Lemma SFleb_refl x : x <> S754_nan -> SFleb x x = true.
Proof. intros H. unfold SFleb. rewrite SFcompare_refl by assumption. reflexivity. Qed.

Lemma SFleb_finite_lex mx ex m2 e2 :
  ex < e2 \/ (e2 = ex /\ (mx <= m2)%positive) ->
  SFleb (S754_finite false mx ex) (S754_finite false m2 e2) = true.
Proof.
  intros H. unfold SFleb. cbn.
  destruct (Z.compare_spec ex e2) as [E|E|E]; try reflexivity; try lia.
  rewrite Pos.compare_cont_spec. cbn.
  destruct H as [H|[_ H]]; [lia|].
  destruct (Pos.compare_spec mx m2); try reflexivity. lia.
Qed.

(** Adding a non-negative number never gives less. *)
Lemma SFadd_nonneg_ge x y :
  valid_binary x = true -> valid_binary y = true ->
  SFnonneg x = true -> SFnonneg y = true ->
  SFleb x (SF64add x y) = true /\ SFnonneg (SF64add x y) = true.
Proof.
  intros Vx Vy Nx Ny.
  destruct x as [sx|sx| |sx mx ex], y as [sy|sy| |sy my ey];
    cbn in Nx, Ny; try discriminate;
    try (destruct sx; try discriminate); try (destruct sy; try discriminate);
    try (split; reflexivity);
    try (match goal with
         | |- SFleb ?x (SF64add ?x ?y) = true /\ _ =>
             change (SF64add x y) with x;
             split; [apply SFleb_refl; discriminate|reflexivity]
         end).
  apply valid_binary_canonical in Vx, Vy. destruct Vx as [Cx _], Vy as [Cy _].
  unfold SF64add, SFadd. cbn [cond_Zopp].
  pose proof (shl_align_spec mx ex (Z.min ex ey)) as [_ Hx].
    pose proof (shl_align_spec my ey (Z.min ex ey)) as [_ Hy].
    replace (Z.min ex (Z.min ex ey)) with (Z.min ex ey) in Hx by lia.
    replace (Z.min ey (Z.min ex ey)) with (Z.min ex ey) in Hy by lia.
    set (M := Zpos (fst (shl_align mx ex (Z.min ex ey))) +
              Zpos (fst (shl_align my ey (Z.min ex ey)))).
    assert (HM : Zpos mx * 2 ^ (ex - Z.min ex ey) <= M) by (unfold M; lia).
    destruct M as [|m|m] eqn:EM; try (unfold M in EM; lia).
    cbn [binary_normalize].
    destruct (binary_round_lower false m (Z.min ex ey) mx ex Cx ltac:(lia) HM)
      as [->|(m2 & e2 & -> & Hlex)].
    + split; reflexivity.
    + split; [apply SFleb_finite_lex; exact Hlex|reflexivity].
Qed.

Lemma SFadd_comm x y : SF64add x y = SF64add y x.
Proof.
  unfold SF64add, SFadd.
  destruct x as [sx|sx| |sx mx ex], y as [sy|sy| |sy my ey];
    try reflexivity; try (destruct sx, sy; reflexivity).
  rewrite (Z.min_comm ey ex), Z.add_comm. reflexivity.
Qed.

(** Rounding a value below [2^K] stays below [2^(K+1)] and does not
    overflow. *)
Lemma binary_round_aux_small M e l K :
  0 <= M < 2 ^ (K - e) -> e <= K -> -1074 <= K <= 1023 -> e <= 971 ->
  SFsmall (K + 1) (binary_round_aux prec emax false M e l) = true.
Proof.
  intros [HM0 HM] HeK HK He.
  destruct (binary_round_aux_spec false M e l HM0)
    as (n1 & m1 & n2 & Hn1 & Hm1 & Hex & Hn2 & ->).
  rewrite fexp64_eq in Hn1, Hn2.
  assert (Hd : Zdigits2 M <= K - e).
  { destruct (Z.eq_dec M 0) as [->|]; [cbn; lia|].
    apply Zdigits2_le; lia. }
  set (e1 := e + n1) in *.
  assert (He1 : e1 <= K /\ e1 <= 971) by lia.
  assert (Hq : M / 2 ^ n1 < 2 ^ (K - e1)).
  { apply Z.div_lt_upper_bound; [apply pow2_gt0; lia|].
    rewrite <- Z.pow_add_r by lia. replace (n1 + (K - e1)) with (K - e) by lia.
    exact HM. }
  assert (0 <= M / 2 ^ n1) by (apply Z.div_pos; [lia|apply pow2_gt0; lia]).
  assert (Hm1' : 0 <= m1 <= 2 ^ (K - e1)) by lia.
  assert (H0 : 0 <= m1 / 2 ^ n2) by (apply Z.div_pos; [lia|apply pow2_gt0; lia]).
  destruct (m1 / 2 ^ n2) as [|m2|m2] eqn:Em2; [reflexivity| |lia].
  assert (Hm1pos : 0 < m1).
  { destruct (Z.eq_dec m1 0) as [E|E]; [|lia].
    rewrite E, Z.div_0_l in Em2; [discriminate|].
    apply Z.pow_nonzero; lia. }
  assert (Hd1 : Zdigits2 m1 <= K - e1 + 1).
  { apply Zdigits2_le; [lia|]. rewrite Z.pow_add_r by lia. change (2 ^ 1) with 2.
    assert (0 < 2 ^ (K - e1)) by (apply pow2_gt0; lia). lia. }
  set (e2 := e1 + n2) in *.
  assert (He2 : e2 <= K /\ e2 <= 971) by lia.
  replace (e2 <=? 971) with true by (symmetry; apply Z.leb_le; lia).
  cbn [SFsmall]. apply Z.leb_le.
  assert (Hm2 : Zpos m2 <= 2 ^ (K - e2)).
  { assert (Hp : 0 < 2 ^ n2) by (apply pow2_gt0; lia).
    pose proof (Z.mul_div_le m1 (2 ^ n2) Hp) as Hmd. rewrite Em2 in Hmd.
    apply Z.mul_le_mono_pos_l with (p := 2 ^ n2); [exact Hp|].
    rewrite <- Z.pow_add_r by lia. replace (n2 + (K - e2)) with (K - e1) by lia.
    lia. }
  assert (Hd2 : Zdigits2 (Zpos m2) <= K - e2 + 1).
  { apply Zdigits2_le; [lia|]. rewrite Z.pow_add_r by lia. change (2 ^ 1) with 2.
    assert (0 < 2 ^ (K - e2)) by (apply pow2_gt0; lia). lia. }
  cbn [Zdigits2] in Hd2. lia.
Qed.

Lemma binary_round_small m e K :
  Zpos m < 2 ^ (K - e) -> e <= K -> -1074 <= K <= 1023 -> e <= 971 ->
  SFsmall (K + 1) (binary_round prec emax false m e) = true.
Proof.
  intros HM HeK HK He. unfold binary_round.
  pose proof (shl_align_spec m e (fexp64 (Zpos (digits2_pos m) + e))) as [Hs Hf].
  destruct (shl_align m e _) as [mz ez]. cbn [fst snd] in Hs, Hf.
  assert (ez <= e) by lia.
  apply binary_round_aux_small; try lia.
  split; [lia|]. rewrite Hf, <- Hs.
  replace (K - ez) with ((K - e) + (e - ez)) by lia.
  rewrite Z.pow_add_r by lia.
  assert (0 < 2 ^ (e - ez)) by (apply pow2_gt0; lia). nia.
Qed.

Lemma finite_value_lt m e K :
  Zpos (digits2_pos m) + e <= K -> forall ez, ez <= e ->
  Zpos m * 2 ^ (e - ez) < 2 ^ (K - ez).
Proof.
  intros Hd ez Hez. pose proof (digits2_pos_bounds m) as [_ Hhi].
  assert (2 ^ Zpos (digits2_pos m) <= 2 ^ (K - e)) by (apply Z.pow_le_mono_r; lia).
  replace (K - ez) with ((K - e) + (e - ez)) by lia.
  rewrite Z.pow_add_r by lia.
  assert (0 < 2 ^ (e - ez)) by (apply pow2_gt0; lia). nia.
Qed.

Lemma SFadd_small K x y :
  valid_binary x = true -> valid_binary y = true -> -1074 <= K <= 1022 ->
  SFsmall K x = true -> SFsmall K y = true ->
  SFsmall (K + 2) (SF64add x y) = true.
Proof.
  intros Vx Vy HK Sx Sy.
  destruct x as [sx|sx| |[] mx ex], y as [sy|sy| |[] my ey];
    cbn [SFsmall] in Sx, Sy; try discriminate.
  - destruct sx, sy; reflexivity.
  - cbn [SF64add SFadd SFsmall]. apply Z.leb_le. apply Z.leb_le in Sy. lia.
  - cbn [SF64add SFadd SFsmall]. apply Z.leb_le. apply Z.leb_le in Sx. lia.
  - apply valid_binary_canonical in Vx, Vy. destruct Vx as [Cx Bx], Vy as [Cy By].
    apply Z.leb_le in Sx, Sy.
    unfold SF64add, SFadd. cbn [cond_Zopp].
    pose proof (shl_align_spec mx ex (Z.min ex ey)) as [_ Hx].
    pose proof (shl_align_spec my ey (Z.min ex ey)) as [_ Hy].
    replace (Z.min ex (Z.min ex ey)) with (Z.min ex ey) in Hx by lia.
    replace (Z.min ey (Z.min ex ey)) with (Z.min ex ey) in Hy by lia.
    pose proof (finite_value_lt mx ex K Sx (Z.min ex ey) ltac:(lia)) as Bx'.
    pose proof (finite_value_lt my ey K Sy (Z.min ex ey) ltac:(lia)) as By'.
    pose proof (Pos2Z.is_pos (digits2_pos mx)).
    set (M := Zpos (fst (shl_align mx ex (Z.min ex ey))) +
              Zpos (fst (shl_align my ey (Z.min ex ey)))).
    assert (HM : M < 2 ^ (K + 1 - Z.min ex ey)).
    { replace (K + 1 - Z.min ex ey) with (1 + (K - Z.min ex ey)) by lia.
      rewrite Z.pow_add_r by lia. change (2 ^ 1) with 2. unfold M. lia. }
    destruct M as [|m|m] eqn:EM; try (unfold M in EM; lia).
    cbn [binary_normalize].
    replace (K + 2) with (K + 1 + 1) by lia.
    apply binary_round_small; try lia.
Qed.

Lemma SFmul_finite_nonneg m e y :
  SFnonneg y = true -> SFnonneg (SF64mul (S754_finite false m e) y) = true.
Proof.
  destruct y as [s|s| |s my ey]; cbn; try discriminate; auto.
  destruct s; try discriminate. intros _.
  apply binary_round_aux_nonneg. lia.
Qed.

Lemma SFmul_nonneg_finite x m e :
  SFnonneg x = true -> SFnonneg (SF64mul x (S754_finite false m e)) = true.
Proof.
  destruct x as [s|s| |s mx ex]; cbn; try discriminate; auto.
  - destruct s; auto.
  - destruct s; try discriminate. intros _.
    apply binary_round_aux_nonneg. lia.
Qed.

Lemma SFmul_self_nonneg x : SFnonneg x = true -> SFnonneg (SF64mul x x) = true.
Proof.
  destruct x as [s|s| |s mx ex]; cbn; try discriminate; auto.
  - destruct s; auto.
  - destruct s; try discriminate. intros _.
    apply binary_round_aux_nonneg. lia.
Qed.

Lemma SFdiv_nonneg_finite x m e :
  SFnonneg x = true -> SFnonneg (SF64div x (S754_finite false m e)) = true.
Proof.
  destruct x as [s|s| |s mx ex]; cbn; try discriminate; auto.
  - destruct s; auto.
  - destruct s; try discriminate. intros _.
    unfold SF64div, SFdiv, SFdiv_core_binary. cbn [xorb].
    set (m' := match _ with Z0 => Zpos mx | Zpos _ => _ | Zneg _ => 0 end).
    assert (Hm' : 0 <= m').
    { unfold m'. destruct (_ - _ - _); try lia; try (apply Z.shiftl_nonneg; lia). }
    pose proof (Z.div_pos m' (Zpos m) Hm' ltac:(lia)) as Hq.
    unfold Z.div in Hq. destruct (Z.div_eucl m' (Zpos m)) as [q r]. cbn [fst] in Hq.
    apply binary_round_aux_nonneg. exact Hq.
Qed.

(** Halving a large number does not underflow. *)
Lemma SFmul_half_large ms es :
  valid_binary (S754_finite false ms es) = true ->
  1021 < Zpos (digits2_pos ms) + es ->
  forall s,
    SF64mul (S754_finite false 4503599627370496 (-53)) (S754_finite false ms es)
    <> S754_zero s.
Proof.
  intros V Hbig s. apply valid_binary_canonical in V. destruct V as [C B].
  rewrite fexp64_eq in C.
  unfold SF64mul, SFmul. cbn [xorb].
  assert (Hc : fexp64 (Zpos (digits2_pos ms) + (es - 1)) = es - 1)
    by (rewrite fexp64_eq; lia).
  assert (Hv : Zpos ms * 2 ^ (es - 1 - (-53 + es)) <= Zpos (4503599627370496 * ms)).
  { replace (es - 1 - (-53 + es)) with 52 by lia.
    rewrite Pos2Z.inj_mul. change (2 ^ 52) with 4503599627370496. lia. }
  destruct (binary_round_aux_lower false
              (Zpos (4503599627370496 * ms)) (-53 + es) loc_Exact ms (es - 1)
              ltac:(lia) Hc ltac:(lia) Hv) as [->|(m2 & e2 & -> & _)];
    discriminate.
Qed.

Lemma pow2_split a b : 0 <= a -> 0 <= b -> 2 ^ (a + b) = 2 ^ a * 2 ^ b.
Proof. intros. apply Z.pow_add_r; lia. Qed.

(** Rounding a value that is at most a representable number [mx * 2^ex]
    gives at most that number. *)
Lemma binary_round_aux_upper sx M e mx ex :
  0 < M ->
  fexp64 (Zpos (digits2_pos mx) + ex) = ex -> ex <= 971 ->
  e <= ex ->
  M <= Zpos mx * 2 ^ (ex - e) ->
  binary_round_aux prec emax sx M e loc_Exact = S754_zero sx \/
  exists m2 e2,
    binary_round_aux prec emax sx M e loc_Exact = S754_finite sx m2 e2 /\
    (e2 < ex \/ (e2 = ex /\ (m2 <= mx)%positive)).
Proof.
  intros HM Hcan Hb Hle Hval.
  destruct (binary_round_aux_spec sx M e loc_Exact ltac:(lia))
    as (n1 & m1 & n2 & Hn1 & Hm1 & Hex & Hn2 & ->).
  specialize (Hex eq_refl).
  pose proof (Zdigits2_bounds M HM) as [Hlo Hhi].
  pose proof (Zdigits2_pos M HM) as Hdpos.
  pose proof (digits2_pos_bounds mx) as [Hxlo Hxhi].
  set (d := Zdigits2 M) in *. set (dx := Zpos (digits2_pos mx)) in *.
  assert (Hdx0 : 0 < dx) by (unfold dx; lia).
  assert (Hp : 0 < 2 ^ (ex - e)) by (apply pow2_gt0; lia).
  (* a bound on the digits of [M] *)
  assert (Hd : d + e <= dx + ex).
  { assert (M < 2 ^ (dx + (ex - e))) by (rewrite pow2_split by lia; nia).
    pose proof (Zdigits2_le M (dx + (ex - e)) HM H). fold d in H0. lia. }
  rewrite fexp64_eq in Hcan, Hn1, Hn2.
  set (e1 := e + n1) in *.
  assert (He1 : e1 <= ex) by lia.
  assert (Hn1' : 0 <= n1) by lia.
  assert (Hp1 : 0 < 2 ^ n1) by (apply pow2_gt0; lia).
  assert (HX1 : Zpos mx * 2 ^ (ex - e) = Zpos mx * 2 ^ (ex - e1) * 2 ^ n1).
  { replace (ex - e) with ((ex - e1) + n1) by lia. rewrite pow2_split by lia. lia. }
  (* the rounded mantissa stays below *)
  assert (Hm1' : 0 <= m1 <= Zpos mx * 2 ^ (ex - e1)).
  { assert (0 <= M / 2 ^ n1) by (apply Z.div_pos; lia).
    split; [lia|].
    assert (Hq : M / 2 ^ n1 <= Zpos mx * 2 ^ (ex - e1)).
    { apply Z.div_le_upper_bound; [exact Hp1|]. lia. }
    destruct (Z.eq_dec (M / 2 ^ n1) (Zpos mx * 2 ^ (ex - e1))) as [E|E]; [|lia].
    assert (HMeq : M = Zpos mx * 2 ^ (ex - e1) * 2 ^ n1).
    { pose proof (Z.mul_div_le M (2 ^ n1) Hp1). rewrite E in H0. lia. }
    rewrite Hex; [lia|]. exists (Zpos mx * 2 ^ (ex - e1)). exact HMeq. }
  assert (Hn2' : 0 <= n2) by lia.
  assert (Hp2 : 0 < 2 ^ n2) by (apply pow2_gt0; lia).
  assert (H0 : 0 <= m1 / 2 ^ n2) by (apply Z.div_pos; lia).
  destruct (m1 / 2 ^ n2) as [|m2|m2] eqn:Em2; [left; reflexivity| |lia].
  right.
  assert (Hm1pos : 0 < m1).
  { destruct (Z.eq_dec m1 0) as [E|E]; [|lia].
    rewrite E, Z.div_0_l in Em2; [discriminate|lia]. }
  assert (Hd1 : Zdigits2 m1 + e1 <= dx + ex).
  { assert (0 < 2 ^ (ex - e1)) by (apply pow2_gt0; lia).
    assert (m1 < 2 ^ (dx + (ex - e1))) by (rewrite pow2_split by lia; nia).
    pose proof (Zdigits2_le m1 (dx + (ex - e1)) Hm1pos H1). lia. }
  set (e2 := e1 + n2) in *.
  assert (He2 : e2 <= ex) by lia.
  replace (e2 <=? 971) with true by (symmetry; apply Z.leb_le; lia).
  exists m2, e2. split; [reflexivity|].
  destruct (Z.eq_dec e2 ex) as [E|E]; [right|left; lia].
  split; [exact E|].
  assert (Zpos m2 <= Zpos mx); [|lia].
  rewrite <- Em2. apply Z.div_le_upper_bound; [exact Hp2|].
  replace (ex - e1) with n2 in Hm1' by lia. lia.
Qed.

Lemma binary_round_upper sx m e mx ex :
  fexp64 (Zpos (digits2_pos mx) + ex) = ex -> ex <= 971 ->
  e <= ex ->
  Zpos m <= Zpos mx * 2 ^ (ex - e) ->
  binary_round prec emax sx m e = S754_zero sx \/
  exists m2 e2,
    binary_round prec emax sx m e = S754_finite sx m2 e2 /\
    (e2 < ex \/ (e2 = ex /\ (m2 <= mx)%positive)).
Proof.
  intros Hcan Hb Hle Hval. unfold binary_round.
  pose proof (shl_align_spec m e (fexp64 (Zpos (digits2_pos m) + e))) as [Hs Hf].
  destruct (shl_align m e _) as [mz ez]. cbn [fst snd] in Hs, Hf.
  assert (ez <= e) by lia.
  apply binary_round_aux_upper; try assumption; try lia.
  rewrite Hf, <- Hs.
  replace (ex - ez) with ((ex - e) + (e - ez)) by lia.
  rewrite pow2_split by lia.
  assert (0 < 2 ^ (e - ez)) by (apply pow2_gt0; lia). nia.
Qed.

Lemma binary_round_signed sx m e :
  SFsigned sx (binary_round prec emax sx m e) = true.
Proof.
  unfold binary_round. destruct (shl_align m e _) as [mz ez].
  apply binary_round_aux_signed. lia.
Qed.

Lemma SFleb_neg_signed_false mx ex r :
  SFsigned false r = true -> SFleb (S754_finite true mx ex) r = true.
Proof.
  destruct r as [[]|[]| |[] m e]; cbn; intros H; try discriminate; reflexivity.
Qed.

Lemma SFleb_neg_finite_lex mx ex m2 e2 :
  e2 < ex \/ (e2 = ex /\ (m2 <= mx)%positive) ->
  SFleb (S754_finite true mx ex) (S754_finite true m2 e2) = true.
Proof.
  intros H. unfold SFleb. cbn.
  destruct (Z.compare_spec ex e2) as [E|E|E]; try reflexivity; try lia.
  rewrite Pos.compare_cont_spec. cbn.
  destruct H as [H|[_ H]]; [lia|].
  destruct (Pos.compare_spec mx m2); try reflexivity. lia.
Qed.

(** Adding a non-negative number never gives less, whatever the sign of
    the first operand, as long as the sum is a number. *)
Lemma SFadd_ge x y :
  valid_binary x = true -> valid_binary y = true ->
  SFnonneg y = true -> SF64add x y <> S754_nan ->
  SFleb x (SF64add x y) = true.
Proof.
  intros Vx Vy Ny Hnum.
  destruct (SFnonneg x) eqn:Nx; [apply SFadd_nonneg_ge; assumption|].
  destruct x as [sx|sx| |sx mx ex]; cbn in Nx; try discriminate;
    try (exfalso; apply Hnum; reflexivity).
  - (* -infinity *)
    destruct sx; try discriminate.
    destruct y as [sy|sy| |sy my ey]; cbn in Ny; try discriminate;
      try (destruct sy; try discriminate); try reflexivity.
    exfalso; apply Hnum; reflexivity.
  - (* negative and finite *)
    destruct sx; try discriminate.
    destruct y as [sy|sy| |sy my ey]; cbn in Ny; try discriminate.
    + change (SF64add (S754_finite true mx ex) (S754_zero sy))
        with (S754_finite true mx ex). apply SFleb_refl. discriminate.
    + destruct sy; try discriminate. reflexivity.
    + destruct sy; try discriminate.
      apply valid_binary_canonical in Vx. destruct Vx as [Cx Bx].
      unfold SF64add, SFadd. cbn [cond_Zopp].
      pose proof (shl_align_spec mx ex (Z.min ex ey)) as [_ Hx].
      pose proof (shl_align_spec my ey (Z.min ex ey)) as [_ Hy].
      replace (Z.min ex (Z.min ex ey)) with (Z.min ex ey) in Hx by lia.
      set (M := - Zpos (fst (shl_align mx ex (Z.min ex ey))) +
                Zpos (fst (shl_align my ey (Z.min ex ey)))).
      assert (HM : - M <= Zpos mx * 2 ^ (ex - Z.min ex ey)) by (unfold M; lia).
      destruct M as [|m|m] eqn:EM; cbn [binary_normalize].
      * reflexivity.
      * apply SFleb_neg_signed_false. apply binary_round_signed.
      * destruct (binary_round_upper true m (Z.min ex ey) mx ex Cx Bx ltac:(lia))
          as [->|(m2 & e2 & -> & Hlex)].
        -- change (- Zneg m) with (Zpos m) in HM. exact HM.
        -- reflexivity.
        -- apply SFleb_neg_finite_lex. exact Hlex.
Qed.

Local Close Scope Z_scope.

(** ** The primitive operations *)

Lemma nonneg_spec x : nonneg x = SFnonneg (Prim2SF x).
Proof.
  unfold nonneg. rewrite leb_spec.
  change (Prim2SF 0) with (S754_zero false).
  destruct (Prim2SF x) as [s|s| |s m e]; try reflexivity; destruct s; reflexivity.
Qed.

Lemma nonneg_is_num x : nonneg x = true -> is_num x = true.
Proof. intros H. apply leb_is_num in H. tauto. Qed.

Lemma add_nonneg_ge x y :
  nonneg x = true -> nonneg y = true ->
  (x <=? x + y) = true /\ nonneg (x + y) = true.
Proof.
  rewrite !nonneg_spec, leb_spec, add_spec. intros Hx Hy.
  apply SFadd_nonneg_ge; auto using Prim2SF_valid.
Qed.

Lemma add_nonneg x y : nonneg x = true -> nonneg y = true -> nonneg (x + y) = true.
Proof. intros Hx Hy. apply add_nonneg_ge; assumption. Qed.

Lemma add_comm x y : x + y = y + x.
Proof. apply Prim2SF_inj. rewrite !add_spec. apply SFadd_comm. Qed.

(** The first two terms of a sum that starts from [0] may be swapped. *)
Lemma SFadd_zero_swap a b :
  SF64add (SF64add (S754_zero false) a) b = SF64add (SF64add (S754_zero false) b) a.
Proof.
  destruct a as [sa|sa| |sa ma ea], b as [sb|sb| |sb mb eb];
    try reflexivity; try (destruct sa; reflexivity); try (destruct sb; reflexivity);
    try (destruct sa, sb; reflexivity).
  change (SF64add (S754_zero false) (S754_finite sa ma ea)) with (S754_finite sa ma ea).
  change (SF64add (S754_zero false) (S754_finite sb mb eb)) with (S754_finite sb mb eb).
  apply SFadd_comm.
Qed.

Lemma add_zero_swap a b : 0 + a + b = 0 + b + a.
Proof.
  apply Prim2SF_inj. rewrite !add_spec.
  change (Prim2SF 0) with (S754_zero false). apply SFadd_zero_swap.
Qed.

Lemma mul_self_nonneg x : nonneg x = true -> nonneg (x * x) = true.
Proof. rewrite !nonneg_spec, mul_spec. apply SFmul_self_nonneg. Qed.

Lemma div_nonneg x y m e :
  Prim2SF y = S754_finite false m e ->
  nonneg x = true -> nonneg (x / y) = true.
Proof.
  intros Hy. rewrite !nonneg_spec, div_spec, Hy. apply SFdiv_nonneg_finite.
Qed.

Lemma to_Z_of_Z_small z : (0 <= z < 2 ^ 32)%Z -> Uint63.to_Z (Uint63.of_Z z) = z.
Proof.
  intros H. rewrite Uint63.of_Z_spec. apply Z.mod_small.
  change wB with (2 ^ 63)%Z. lia.
Qed.

Lemma Prim2SF_half : Prim2SF 0.5 = S754_finite false 4503599627370496 (-53).
Proof. reflexivity. Qed.

Lemma Prim2SF_one : Prim2SF 1 = S754_finite false 4503599627370496 (-52).
Proof. reflexivity. Qed.

(** [0.5 * s * (s + 1)] is never [0 * infinity]. *)
Lemma half_times_succ_nonneg s :
  nonneg s = true -> nonneg (0.5 * s * (s + 1)) = true.
Proof.
  intros Hs.
  assert (H1 : nonneg 1 = true) by reflexivity.
  destruct (add_nonneg_ge 1 s H1 Hs) as [Hge Hq].
  rewrite add_comm in Hge, Hq.
  assert (Hp : nonneg (0.5 * s) = true).
  { rewrite nonneg_spec, mul_spec, Prim2SF_half. apply SFmul_finite_nonneg.
    rewrite <- nonneg_spec. exact Hs. }
  rewrite leb_spec, Prim2SF_one in Hge.
  rewrite nonneg_spec in Hq, Hp, Hs |- *.
  rewrite mul_spec.
  destruct (Prim2SF (s + 1)) as [sq|sq| |sq mq eq] eqn:Eq; try discriminate.
  - (* s + 1 = infinity *)
    destruct sq; try discriminate.
    assert (Hnz : forall z, Prim2SF (0.5 * s) <> S754_zero z).
    { intros z. rewrite mul_spec, Prim2SF_half.
      rewrite add_spec, Prim2SF_one in Eq.
      pose proof (Prim2SF_valid s) as Vs.
      destruct (Prim2SF s) as [ss|ss| |ss ms es] eqn:Es; try discriminate.
      destruct ss; try discriminate.
      destruct (SFsmall 1021 (S754_finite false ms es)) eqn:Sm.
      - exfalso.
        assert (Hsm : SFsmall (1021 + 2)
                  (SF64add (S754_finite false ms es)
                     (S754_finite false 4503599627370496 (-52))) = true).
        { apply SFadd_small; auto; lia. }
        rewrite Eq in Hsm. discriminate.
      - cbn [SFsmall] in Sm. apply Z.leb_gt in Sm.
        apply SFmul_half_large; assumption. }
    destruct (Prim2SF (0.5 * s)) as [sp|sp| |sp mp ep]; try discriminate.
    + exfalso. apply (Hnz sp). reflexivity.
    + destruct sp; try discriminate. reflexivity.
    + destruct sp; try discriminate. reflexivity.
  - destruct sq; try discriminate. apply SFmul_nonneg_finite. exact Hp.
Qed.

Lemma cantor_nonneg a b :
  nonneg a = true -> nonneg b = true ->
  nonneg (0.5 * (a + b) * (a + b + 1) + b) = true.
Proof.
  intros Ha Hb. apply add_nonneg; [|exact Hb].
  apply half_times_succ_nonneg. apply add_nonneg; assumption.
Qed.

Lemma add_ge x y :
  nonneg y = true -> is_num (x + y) = true -> (x <=? x + y) = true.
Proof.
  rewrite nonneg_spec, is_num_spec, leb_spec, add_spec.
  intros Hy Hn. apply SFadd_ge; auto using Prim2SF_valid.
Qed.

Lemma rank_inj x y :
  SFplain x = true -> SFplain y = true -> rank x = rank y -> x = y.
Proof.
  destruct x as [[]|[]| |[] mx ex], y as [[]|[]| |[] my ey]; cbn;
    intros Hx Hy E; try discriminate; try reflexivity;
    injection E as E1 E2; f_equal; lia.
Qed.

Lemma plain_is_num x : plain x = true -> is_num x = true.
Proof.
  unfold plain. intros H. apply is_num_spec. intros E. rewrite E in H. discriminate.
Qed.

(** Numbers that compare equal are identical, signed zeros apart. *)
Lemma leb_antisym x y :
  plain x = true -> plain y = true ->
  (x <=? y) = true -> (y <=? x) = true -> x = y.
Proof.
  intros Px Py H1 H2. apply Prim2SF_inj. apply rank_inj; try assumption.
  to_rank.
  destruct H1 as [H1|H1]; [|exact H1].
  destruct H2 as [H2|H2]; [|symmetry; exact H2].
  exfalso. destruct (rank (Prim2SF x)) as [[? ?] ?], (rank (Prim2SF y)) as [[? ?] ?].
  cbn in H1, H2. lia.
Qed.

Lemma SFsigned_false_plain x : SFsigned false x = true -> SFplain x = true.
Proof. destruct x as [[]|[]| |[] m e]; cbn; auto. Qed.

Lemma SFsigned_false_nonneg x : SFsigned false x = true -> SFnonneg x = true.
Proof. destruct x as [[]|[]| |[] m e]; cbn; auto. Qed.

Lemma uint32_wrap_range z : (0 <= uint32_wrap z < 2 ^ 32)%Z.
Proof. unfold uint32_wrap. apply Z.mod_pos_bound. reflexivity. Qed.

(** A converted [uint32_t] is [+0] or a positive number. *)
Lemma double_of_uint32_signed w :
  SFsigned false (Prim2SF (double_of_uint32 w)) = true.
Proof.
  unfold double_of_uint32. rewrite of_uint63_spec.
  change (Uint63Axioms.to_Z (of_Z (uint32_wrap w)))
    with (Uint63.to_Z (Uint63.of_Z (uint32_wrap w))).
  rewrite to_Z_of_Z_small by apply uint32_wrap_range.
  apply binary_normalize_signed. apply uint32_wrap_range.
Qed.

Lemma double_of_uint32_nonneg w : nonneg (double_of_uint32 w) = true.
Proof. rewrite nonneg_spec. apply SFsigned_false_nonneg, double_of_uint32_signed. Qed.

Lemma double_of_uint32_plain w : plain (double_of_uint32 w) = true.
Proof. apply SFsigned_false_plain, double_of_uint32_signed. Qed.

(** * Part IV: the program's functions *)

(** ** [min_element] and [max_element] *)

Section MinMax.
Context {A : Type}.
Variable key : A -> float.
Variable comp : A -> A -> bool.
Hypothesis comp_key : forall a b, comp a b = (key a <? key b).

Lemma min_element_loop_bound l : forall smallest vs first,
  (smallest < first)%nat ->
  (min_element_loop comp smallest vs first l < first + length l)%nat.
Proof.
  induction l as [|x l IH]; intros smallest vs first Hlt; cbn [min_element_loop length].
  - lia.
  - destruct (comp x vs).
    + specialize (IH first x (S first) ltac:(lia)). lia.
    + specialize (IH smallest vs (S first) ltac:(lia)). lia.
Qed.

Lemma min_element_bound l : l <> [] -> (min_element comp l < length l)%nat.
Proof.
  destruct l as [|x l]; [congruence|]. intros _. cbn [min_element length].
  pose proof (min_element_loop_bound l 0%nat x 1%nat ltac:(lia)). lia.
Qed.

(** The invariant of the loop of [min_element]: [pre] is the part of the
    range already scanned. *)
Lemma min_element_loop_spec l : forall pre smallest vs,
  first_least key pre smallest vs ->
  is_num (key vs) = true ->
  Forall (fun y => is_num (key y) = true) l ->
  exists x, first_least key (pre ++ l) (min_element_loop comp smallest vs (length pre) l) x.
Proof.
  induction l as [|x l IH]; intros pre smallest vs (Hnth & Hle & Hlt) Hvs Hl;
    cbn [min_element_loop].
  - exists vs. rewrite app_nil_r. repeat split; assumption.
  - inversion Hl as [|? ? Hx Hl']; subst.
    assert (Hsm : (smallest < length pre)%nat)
      by (apply nth_error_Some; congruence).
    replace (pre ++ x :: l) with ((pre ++ [x]) ++ l) by (rewrite <- app_assoc; reflexivity).
    replace (S (length pre)) with (length (pre ++ [x]))
      by (rewrite length_app; cbn; lia).
    rewrite comp_key. destruct (key x <? key vs) eqn:E.
    + apply IH; try assumption.
      repeat split.
      * rewrite nth_error_app2 by lia. rewrite Nat.sub_diag. reflexivity.
      * intros y Hy. apply in_app_or in Hy. destruct Hy as [Hy|[<-|[]]].
        -- apply ltb_leb. eapply ltb_leb_trans; [exact E|]. apply Hle; assumption.
        -- apply leb_refl; assumption.
      * intros j y Hj Hy. rewrite nth_error_app1 in Hy by lia.
        eapply ltb_leb_trans; [exact E|]. apply Hle. eapply nth_error_In; eassumption.
    + apply IH; try assumption.
      repeat split.
      * rewrite nth_error_app1 by lia. assumption.
      * intros y Hy. apply in_app_or in Hy. destruct Hy as [Hy|[<-|[]]].
        -- apply Hle; assumption.
        -- apply ltb_false_leb; assumption.
      * intros j y Hj Hy. rewrite nth_error_app1 in Hy by lia.
        eapply Hlt; eassumption.
Qed.

Lemma min_element_spec l :
  l <> [] -> Forall (fun y => is_num (key y) = true) l ->
  exists x, first_least key l (min_element comp l) x.
Proof.
  destruct l as [|x l]; [congruence|]. intros _ Hl.
  inversion Hl as [|? ? Hx Hl']; subst. cbn [min_element].
  apply (min_element_loop_spec l [x] 0%nat x); try assumption.
  repeat split.
  - intros y [<-|[]]. apply leb_refl; assumption.
  - intros j y Hj. lia.
Qed.

Lemma max_element_loop_spec l : forall pre largest vl,
  first_greatest key pre largest vl ->
  is_num (key vl) = true ->
  Forall (fun y => is_num (key y) = true) l ->
  exists x, first_greatest key (pre ++ l) (max_element_loop comp largest vl (length pre) l) x.
Proof.
  induction l as [|x l IH]; intros pre largest vl (Hnth & Hle & Hlt) Hvl Hl;
    cbn [max_element_loop].
  - exists vl. rewrite app_nil_r. repeat split; assumption.
  - inversion Hl as [|? ? Hx Hl']; subst.
    assert (Hsm : (largest < length pre)%nat)
      by (apply nth_error_Some; congruence).
    replace (pre ++ x :: l) with ((pre ++ [x]) ++ l) by (rewrite <- app_assoc; reflexivity).
    replace (S (length pre)) with (length (pre ++ [x]))
      by (rewrite length_app; cbn; lia).
    rewrite comp_key. destruct (key vl <? key x) eqn:E.
    + apply IH; try assumption.
      repeat split.
      * rewrite nth_error_app2 by lia. rewrite Nat.sub_diag. reflexivity.
      * intros y Hy. apply in_app_or in Hy. destruct Hy as [Hy|[<-|[]]].
        -- apply ltb_leb. eapply leb_ltb_trans; [|exact E]. apply Hle; assumption.
        -- apply leb_refl; assumption.
      * intros j y Hj Hy. rewrite nth_error_app1 in Hy by lia.
        eapply leb_ltb_trans; [|exact E]. apply Hle. eapply nth_error_In; eassumption.
    + apply IH; try assumption.
      repeat split.
      * rewrite nth_error_app1 by lia. assumption.
      * intros y Hy. apply in_app_or in Hy. destruct Hy as [Hy|[<-|[]]].
        -- apply Hle; assumption.
        -- apply ltb_false_leb; assumption.
      * intros j y Hj Hy. rewrite nth_error_app1 in Hy by lia.
        eapply Hlt; eassumption.
Qed.

Lemma max_element_spec l :
  l <> [] -> Forall (fun y => is_num (key y) = true) l ->
  exists x, first_greatest key l (max_element comp l) x.
Proof.
  destruct l as [|x l]; [congruence|]. intros _ Hl.
  inversion Hl as [|? ? Hx Hl']; subst. cbn [max_element].
  apply (max_element_loop_spec l [x] 0%nat x); try assumption.
  repeat split.
  - intros y [<-|[]]. apply leb_refl; assumption.
  - intros j y Hj. lia.
Qed.
End MinMax.

(** ** Green boxes *)

(** Both branches of [GreenBox::calculateScore] compute the same
    function of the history. *)
Lemma GreenBox_score_recent h :
  h <> [] -> GreenBox.calculateScore h = mean_of_recent_squared h.
Proof.
  destruct h as [|a [|b [|c t]]]; [congruence| | |]; intros _.
  - reflexivity.
  - unfold GreenBox.calculateScore, GreenBox.meanList, mean_of_recent_squared, accumulate.
    cbn [length Nat.ltb Nat.leb Nat.min rev app firstn fold_left].
    rewrite (add_zero_swap a b). reflexivity.
  - unfold GreenBox.calculateScore, mean_of_recent_squared.
    set (h := a :: b :: c :: t).
    assert (Hlen : (3 <= length h)%nat) by (cbn; lia).
    replace (length h <? 3)%nat with false by (symmetry; apply Nat.ltb_ge; exact Hlen).
    replace (Nat.min (length h) 3) with 3%nat by lia.
    unfold GreenBox.mean, GreenBox.last_three.
    rewrite length_firstn, length_rev.
    replace (Nat.min 3 (length h)) with 3%nat by lia.
    reflexivity.
Qed.

Lemma mean_of_recent_squared_app old recent :
  length recent = 3%nat ->
  mean_of_recent_squared (old ++ recent) = mean_of_recent_squared recent.
Proof.
  intros H. unfold mean_of_recent_squared.
  rewrite length_app, H, rev_app_distr.
  replace (Nat.min (length old + 3) 3) with 3%nat by lia.
  cbn [Nat.min].
  rewrite firstn_app, length_rev, H, Nat.sub_diag.
  cbn [firstn]. rewrite app_nil_r. reflexivity.
Qed.

(** The same for any [pow]. *)
Lemma GreenBox_score_with_recent pow h :
  h <> [] -> GreenBox.calculateScore_with pow h = pow (mean_of_recent h) 2.
Proof.
  destruct h as [|a [|b [|c t]]]; [congruence| | |]; intros _.
  - reflexivity.
  - unfold GreenBox.calculateScore_with, GreenBox.meanList, mean_of_recent.
    cbn [length Nat.ltb Nat.leb Nat.min rev app firstn fold_left].
    rewrite (add_zero_swap a b). reflexivity.
  - unfold GreenBox.calculateScore_with, mean_of_recent.
    set (h := a :: b :: c :: t).
    assert (Hlen : (3 <= length h)%nat) by (cbn; lia).
    replace (length h <? 3)%nat with false by (symmetry; apply Nat.ltb_ge; exact Hlen).
    replace (Nat.min (length h) 3) with 3%nat by lia.
    unfold GreenBox.mean, GreenBox.last_three, accumulate, double_of_size.
    rewrite length_firstn, length_rev.
    replace (Nat.min 3 (length h)) with 3%nat by lia.
    reflexivity.
Qed.

Lemma mean_of_recent_app old recent :
  length recent = 3%nat -> mean_of_recent (old ++ recent) = mean_of_recent recent.
Proof.
  intros H. unfold mean_of_recent.
  rewrite length_app, H, rev_app_distr.
  replace (Nat.min (length old + 3) 3) with 3%nat by lia.
  cbn [Nat.min].
  rewrite firstn_app, length_rev, H, Nat.sub_diag.
  cbn [firstn]. rewrite app_nil_r. reflexivity.
Qed.

(** The game runs the green boxes with [pow2] for [std::pow]. *)
Lemma GreenBox_calculateScore_pow2 h :
  GreenBox.calculateScore h = GreenBox.calculateScore_with (fun x _ => pow2 x) h.
Proof. reflexivity. Qed.

Lemma In_firstn {A} (x : A) n l : In x (firstn n l) -> In x l.
Proof.
  intros H. rewrite <- (firstn_skipn n l). apply in_or_app. left. exact H.
Qed.

Lemma accumulate_nonneg l : forall init,
  nonneg init = true -> Forall (fun x => nonneg x = true) l ->
  nonneg (accumulate l init) = true.
Proof.
  unfold accumulate. induction l as [|x l IH]; intros init Hi Hl; cbn [fold_left].
  - exact Hi.
  - inversion Hl; subst. apply IH; [apply add_nonneg|]; assumption.
Qed.

Lemma double_of_size_finite n :
  (1 <= n <= 3)%nat -> exists m e, Prim2SF (double_of_size n) = S754_finite false m e.
Proof.
  intros H. assert (E : n = 1%nat \/ n = 2%nat \/ n = 3%nat) by lia.
  destruct E as [->|[->| ->]]; eexists _, _; vm_compute; reflexivity.
Qed.

Lemma mean_of_recent_squared_nonneg h :
  h <> [] -> Forall (fun x => nonneg x = true) h ->
  nonneg (mean_of_recent_squared h) = true.
Proof.
  intros Hne Hh. unfold mean_of_recent_squared, pow2.
  apply mul_self_nonneg.
  destruct (double_of_size_finite (Nat.min (length h) 3)) as (m & e & E).
  { destruct h; [congruence|]. cbn [length]. lia. }
  eapply div_nonneg; [exact E|].
  apply accumulate_nonneg; [reflexivity|].
  apply Forall_forall. intros x Hx.
  apply In_firstn in Hx. apply in_rev in Hx.
  rewrite Forall_forall in Hh. auto.
Qed.

Lemma GreenBox_score_nonneg h :
  Forall (fun x => nonneg x = true) h ->
  nonneg (GreenBox.calculateScore h) = true.
Proof.
  intros Hh. destruct h as [|a t] eqn:E; [reflexivity|].
  rewrite GreenBox_score_recent by congruence.
  apply mean_of_recent_squared_nonneg; [congruence|assumption].
Qed.

(** ** Blue boxes *)

(** [min_element] and [max_element] find a least and a greatest element
    of the history. *)
Lemma BlueBox_score_min_max h :
  h <> [] -> Forall (fun x => is_num x = true) h ->
  exists a b,
    first_least (fun x => x) h (min_element PrimFloat.ltb h) a /\
    first_greatest (fun x => x) h (max_element PrimFloat.ltb h) b /\
    BlueBox.calculateScore h = BlueBox.cantorFunction a b.
Proof.
  intros Hne Hnum.
  destruct (min_element_spec (fun x => x) PrimFloat.ltb (fun a b => eq_refl) h Hne Hnum)
    as (a & Ha).
  destruct (max_element_spec (fun x => x) PrimFloat.ltb (fun a b => eq_refl) h Hne Hnum)
    as (b & Hb).
  exists a, b. split; [exact Ha|]. split; [exact Hb|].
  destruct h as [|x t]; [congruence|].
  unfold BlueBox.calculateScore. cbv zeta.
  destruct Ha as (Ea & _), Hb as (Eb & _).
  rewrite (nth_error_nth _ _ 0 Ea), (nth_error_nth _ _ 0 Eb). reflexivity.
Qed.

Lemma BlueBox_score_nonneg h :
  Forall (fun x => nonneg x = true) h ->
  nonneg (BlueBox.calculateScore h) = true.
Proof.
  intros Hh. destruct h as [|x t] eqn:E; [reflexivity|]. rewrite <- E in *.
  assert (Hne : h <> []) by (subst; congruence).
  assert (Hnum : Forall (fun x => is_num x = true) h).
  { eapply Forall_impl; [|exact Hh]. intros y. apply nonneg_is_num. }
  destruct (BlueBox_score_min_max h Hne Hnum) as (a & b & (Ea & _) & (Eb & _) & ->).
  rewrite Forall_forall in Hh.
  apply cantor_nonneg; apply Hh; eapply nth_error_In; eassumption.
Qed.

(** Reordering a history without [-0] does not change the score. *)
Lemma BlueBox_score_permutation h h' :
  Permutation h h' -> Forall (fun x => plain x = true) h ->
  BlueBox.calculateScore h = BlueBox.calculateScore h'.
Proof.
  intros HP Hpl.
  destruct h as [|x t] eqn:E.
  { apply Permutation_nil in HP. subst. reflexivity. }
  rewrite <- E in *.
  assert (Hne : h <> []) by (subst; discriminate).
  assert (Hne' : h' <> []).
  { intros ->. apply Permutation_sym, Permutation_nil in HP. contradiction. }
  pose proof (Permutation_Forall HP Hpl) as Hpl'.
  assert (Hn : Forall (fun x => is_num x = true) h)
    by (eapply Forall_impl; [|exact Hpl]; intros y; apply plain_is_num).
  assert (Hn' : Forall (fun x => is_num x = true) h')
    by (eapply Forall_impl; [|exact Hpl']; intros y; apply plain_is_num).
  destruct (BlueBox_score_min_max h Hne Hn)
    as (a & b & (Ea & La & _) & (Eb & Gb & _) & ->).
  destruct (BlueBox_score_min_max h' Hne' Hn')
    as (a' & b' & (Ea' & La' & _) & (Eb' & Gb' & _) & ->).
  apply nth_error_In in Ea, Eb, Ea', Eb'.
  rewrite Forall_forall in Hpl, Hpl'.
  assert (a = a').
  { apply leb_antisym; auto.
    - apply La. eapply Permutation_in; [apply Permutation_sym; exact HP|exact Ea'].
    - apply La'. eapply Permutation_in; [exact HP|exact Ea]. }
  assert (b = b').
  { apply leb_antisym; auto.
    - apply Gb'. eapply Permutation_in; [exact HP|exact Eb].
    - apply Gb. eapply Permutation_in; [apply Permutation_sym; exact HP|exact Eb']. }
  subst. reflexivity.
Qed.

Lemma BlueBox_score_permutation_tokens ws ws' :
  Permutation ws ws' ->
  BlueBox.calculateScore (map double_of_uint32 ws) =
  BlueBox.calculateScore (map double_of_uint32 ws').
Proof.
  intros HP. apply BlueBox_score_permutation.
  - apply Permutation_map. exact HP.
  - apply Forall_forall. intros x Hx. apply in_map_iff in Hx.
    destruct Hx as (w & <- & _). apply double_of_uint32_plain.
Qed.

Lemma calculateScore_nonneg b :
  Forall (fun x => nonneg x = true) (absorbed_weights_ b) ->
  nonneg (calculateScore b) = true.
Proof.
  intros H. unfold calculateScore.
  destruct (kind b); [apply GreenBox_score_nonneg|apply BlueBox_score_nonneg]; exact H.
Qed.

(** ** Lists updated at an index *)

Lemma length_set_nth {A} i (x : A) l : length (set_nth i x l) = length l.
Proof.
  revert i. induction l as [|y l IH]; intros [|i]; cbn; auto.
Qed.

Lemma nth_error_set_nth_eq {A} i (x : A) l :
  (i < length l)%nat -> nth_error (set_nth i x l) i = Some x.
Proof.
  revert i. induction l as [|y l IH]; intros [|i]; cbn; intros H; try lia; auto.
  apply IH. lia.
Qed.

Lemma nth_error_set_nth_neq {A} i j (x : A) l :
  i <> j -> nth_error (set_nth i x l) j = nth_error l j.
Proof.
  revert i j. induction l as [|y l IH]; intros [|i] [|j] H; cbn; auto; try congruence.
Qed.

Lemma Forall2_set_nth {A B} (R : A -> B -> Prop) l0 l i b b' :
  Forall2 R l0 l -> nth_error l i = Some b ->
  (forall b0, nth_error l0 i = Some b0 -> R b0 b -> R b0 b') ->
  Forall2 R l0 (set_nth i b' l).
Proof.
  intros H. revert i. induction H as [|x0 x l0 l Hx Hl IH]; intros [|i]; cbn;
    try discriminate.
  - intros H Hb. inversion H; subst. constructor; auto.
  - intros Hi Hb. constructor; auto.
Qed.

Lemma Forall2_nth_error_r {A B} (R : A -> B -> Prop) l0 l i b :
  Forall2 R l0 l -> nth_error l i = Some b ->
  exists b0, nth_error l0 i = Some b0 /\ R b0 b.
Proof.
  intros H. revert i. induction H as [|x0 x l0 l Hx Hl IH]; intros [|i]; cbn;
    try discriminate.
  - intros H. inversion H; subst. eauto.
  - auto.
Qed.

(** ** Absorbing *)

Lemma absorb_fst b w :
  fst (absorb b w) = mkBox (kind b) (weight_ b + w) (absorbed_weights_ b ++ [w]).
Proof. reflexivity. Qed.

Lemma absorb_snd b w : snd (absorb b w) = calculateScore (fst (absorb b w)).
Proof. reflexivity. Qed.

Lemma accumulate_snoc h w init : accumulate (h ++ [w]) init = accumulate h init + w.
Proof. unfold accumulate. rewrite fold_left_app. reflexivity. Qed.

Lemma absorb_box_ok b0 b w :
  box_ok b0 b -> nonneg w = true -> box_ok b0 (fst (absorb b w)).
Proof.
  intros (Hk & Hw & Hn & Hh) Hwn. rewrite absorb_fst.
  unfold box_ok; cbn [kind weight_ absorbed_weights_].
  split; [exact Hk|]. split; [rewrite accumulate_snoc, Hw; reflexivity|].
  split; [apply add_nonneg; assumption|].
  apply Forall_app. split; [exact Hh|]. constructor; [exact Hwn|constructor].
Qed.

Lemma absorb_score_nonneg b0 b w :
  box_ok b0 b -> nonneg w = true -> nonneg (snd (absorb b w)) = true.
Proof.
  intros Hb Hw. rewrite absorb_snd. apply calculateScore_nonneg.
  apply (absorb_box_ok b0 b w Hb Hw).
Qed.

Lemma absorb_all_snoc b ws w :
  absorb_all b (ws ++ [w]) = fst (absorb (absorb_all b ws) w).
Proof. unfold absorb_all. rewrite fold_left_app. reflexivity. Qed.

Lemma absorb_all_spec k init ws :
  kind (absorb_all (mkBox k init []) ws) = k /\
  absorbed_weights_ (absorb_all (mkBox k init []) ws) = ws /\
  weight_ (absorb_all (mkBox k init []) ws) = accumulate ws init.
Proof.
  induction ws as [|w ws IH] using rev_ind.
  - repeat split.
  - destruct IH as (Hk & Hh & Hw).
    rewrite absorb_all_snoc, absorb_fst. cbn [kind weight_ absorbed_weights_].
    rewrite Hk, Hh, Hw, accumulate_snoc. repeat split.
Qed.

Lemma absorb_changes_box b w : fst (absorb b w) <> b.
Proof.
  intros E. apply (f_equal (fun c => length (absorbed_weights_ c))) in E.
  rewrite absorb_fst in E. cbn [absorbed_weights_] in E.
  rewrite length_app in E. cbn in E. lia.
Qed.

(** ** Turns and the loop of [play] *)

(** On a non-empty vector [takeTurn] succeeds. *)
Lemma takeTurn_eq p w bs :
  bs <> [] ->
  exists b,
    nth_error bs (min_element Box_lt bs) = Some b /\
    takeTurn p w bs =
      Some (mkPlayer (score_ p + snd (absorb b (double_of_uint32 w))),
            set_nth (min_element Box_lt bs) (fst (absorb b (double_of_uint32 w))) bs).
Proof.
  intros Hne.
  pose proof (min_element_bound Box_lt bs Hne) as Hlt.
  destruct (nth_error bs (min_element Box_lt bs)) as [b|] eqn:E.
  - exists b. split; [reflexivity|]. unfold takeTurn. rewrite E. reflexivity.
  - apply nth_error_None in E. lia.
Qed.

Lemma step_eq g w :
  boxes g <> [] ->
  exists b g',
    nth_error (boxes g) (min_element Box_lt (boxes g)) = Some b /\
    step g w = Some g' /\
    boxes g' = set_nth (min_element Box_lt (boxes g))
                 (fst (absorb b (double_of_uint32 w))) (boxes g) /\
    turn g' = S (turn g) /\
    score_ (player_of (mover (turn g)) g') =
      score_ (player_of (mover (turn g)) g) + snd (absorb b (double_of_uint32 w)) /\
    player_of (other (mover (turn g))) g' = player_of (other (mover (turn g))) g.
Proof.
  intros Hne. unfold step.
  destruct (mover (turn g)) eqn:Em.
  - destruct (takeTurn_eq (player_A g) w (boxes g) Hne) as (b & Hb & ->).
    exists b. eexists. split; [exact Hb|]. split; [reflexivity|].
    cbn. repeat split; reflexivity.
  - destruct (takeTurn_eq (player_B g) w (boxes g) Hne) as (b & Hb & ->).
    exists b. eexists. split; [exact Hb|]. split; [reflexivity|].
    cbn. repeat split; reflexivity.
Qed.

Lemma Inv_boxes_nonempty g : Inv g -> boxes g <> [].
Proof.
  intros (H & _). intros E. rewrite E in H. inversion H.
Qed.

Lemma Inv_newGame : Inv newGame.
Proof.
  unfold Inv, newGame; cbn [boxes player_A player_B].
  split; [|split; reflexivity].
  unfold initial_boxes.
  repeat constructor.
Qed.

(** A turn keeps the invariant. *)
Lemma step_Inv g w :
  Inv g ->
  exists b0 b g',
    nth_error initial_boxes (min_element Box_lt (boxes g)) = Some b0 /\
    nth_error (boxes g) (min_element Box_lt (boxes g)) = Some b /\
    box_ok b0 b /\
    step g w = Some g' /\ Inv g'.
Proof.
  intros HI. pose proof (Inv_boxes_nonempty g HI) as Hne.
  destruct (step_eq g w Hne) as (b & g' & Hb & Hs & Hbs & Ht & Hsc & Hot).
  destruct HI as (HB & HA & HBp).
  destruct (Forall2_nth_error_r _ _ _ _ _ HB Hb) as (b0 & Hb0 & Hok).
  exists b0, b, g'.
  split; [exact Hb0|]. split; [exact Hb|]. split; [exact Hok|]. split; [exact Hs|].
  unfold Inv. split; [|split].
  - rewrite Hbs. eapply Forall2_set_nth; [exact HB|exact Hb|].
    intros c0 Hc0 Hc. apply absorb_box_ok; [exact Hc|apply double_of_uint32_nonneg].
  - destruct (mover (turn g)); cbn [player_of other] in Hsc, Hot.
    + rewrite Hsc. apply add_nonneg; [exact HA|].
      eapply absorb_score_nonneg; [exact Hok|apply double_of_uint32_nonneg].
    + rewrite Hot. exact HA.
  - destruct (mover (turn g)); cbn [player_of other] in Hsc, Hot.
    + rewrite Hot. exact HBp.
    + rewrite Hsc. apply add_nonneg; [exact HBp|].
      eapply absorb_score_nonneg; [exact Hok|apply double_of_uint32_nonneg].
Qed.

Lemma run_Inv ws : forall g,
  Inv g ->
  exists g', run g ws = Some g' /\ Inv g' /\ turn g' = (turn g + length ws)%nat.
Proof.
  induction ws as [|w ws IH]; intros g HI; cbn [run length].
  - exists g. split; [reflexivity|]. split; [assumption|lia].
  - destruct (step_Inv g w HI) as (b0 & b & g1 & _ & _ & _ & Hs & HI1).
    rewrite Hs.
    destruct (IH g1 HI1) as (g' & Hr & HI' & Ht).
    exists g'. split; [exact Hr|]. split; [exact HI'|].
    destruct (step_eq g w (Inv_boxes_nonempty g HI)) as (? & g1' & _ & Hs' & _ & Ht1 & _).
    rewrite Hs in Hs'. injection Hs' as <-. lia.
Qed.

(** [play] runs to the end on every input. *)
Lemma run_newGame ws :
  exists g, run newGame ws = Some g /\ Inv g /\ turn g = length ws.
Proof.
  destruct (run_Inv ws newGame Inv_newGame) as (g & Hr & HI & Ht).
  exists g. split; [exact Hr|]. split; [exact HI|exact Ht].
Qed.

Lemma movers_seq ws : forall g,
  Inv g -> movers g ws = map mover (seq (turn g) (length ws)).
Proof.
  induction ws as [|w ws IH]; intros g HI; cbn [movers length seq map]; [reflexivity|].
  destruct (step_Inv g w HI) as (b0 & b & g1 & _ & _ & _ & Hs & HI1).
  destruct (step_eq g w (Inv_boxes_nonempty g HI)) as (? & g1' & _ & Hs' & _ & Ht1 & _).
  rewrite Hs in Hs' |- *. injection Hs' as <-.
  rewrite IH by assumption. rewrite Ht1. reflexivity.
Qed.

Lemma turns_taken_seq L :
  let ms := map mover (seq 0 L) in
  (turns_taken Player_A ms + turns_taken Player_B ms = L)%nat /\
  (if Nat.even L then turns_taken Player_A ms = turns_taken Player_B ms
   else turns_taken Player_A ms = S (turns_taken Player_B ms)).
Proof.
  induction L as [|L IH]; [split; reflexivity|].
  cbv zeta in *. rewrite seq_S, map_app. cbn [map Nat.add].
  unfold turns_taken in *. rewrite !filter_app, !length_app.
  rewrite Nat.even_succ, <- Nat.negb_even.
  destruct (Nat.even L) eqn:E.
  - assert (Hm : mover L = Player_A) by (unfold mover; rewrite E; reflexivity).
    rewrite Hm. cbn [negb PlayerId_eqb filter length]. lia.
  - assert (Hm : mover L = Player_B) by (unfold mover; rewrite E; reflexivity).
    rewrite Hm. cbn [negb PlayerId_eqb filter length]. lia.
Qed.

Lemma movers_newGame ws : movers newGame ws = map mover (seq 0 (length ws)).
Proof. apply (movers_seq ws newGame Inv_newGame). Qed.

Lemma first_least_weight g :
  Inv g ->
  exists b, first_least weight_ (boxes g) (min_element Box_lt (boxes g)) b.
Proof.
  intros HI. apply (min_element_spec weight_ Box_lt (fun a b => eq_refl)).
  - apply Inv_boxes_nonempty; assumption.
  - destruct HI as (HB & _). clear -HB.
    induction HB as [|b0 b l0 l Hb Hl IH]; constructor; auto.
    apply nonneg_is_num. apply Hb.
Qed.

Lemma Inv_kinds g : Inv g -> map kind (boxes g) = [Green; Green; Blue; Blue].
Proof.
  intros (HB & _). change [Green; Green; Blue; Blue] with (map kind initial_boxes).
  induction HB as [|b0 b l0 l Hb Hl IH]; [reflexivity|].
  cbn [map]. f_equal; [apply Hb|exact IH].
Qed.

Lemma Inv_length g : Inv g -> length (boxes g) = 4%nat.
Proof.
  intros HI. rewrite <- (length_map kind), (Inv_kinds g HI). reflexivity.
Qed.

(** One turn: it succeeds, keeps the invariant, adds a non-negative score
    to the mover and lowers no score. *)
Lemma step_scores g w :
  Inv g ->
  exists g' s,
    step g w = Some g' /\ Inv g' /\
    nonneg s = true /\
    score_ (player_of (mover (turn g)) g') = score_ (player_of (mover (turn g)) g) + s /\
    player_of (other (mover (turn g))) g' = player_of (other (mover (turn g))) g /\
    (score_ (player_A g) <=? score_ (player_A g')) = true /\
    (score_ (player_B g) <=? score_ (player_B g')) = true.
Proof.
  intros HI.
  destruct (step_Inv g w HI) as (b0 & b & g' & Hb0 & Hb & Hok & Hs & HI').
  destruct (step_eq g w (Inv_boxes_nonempty g HI))
    as (b' & g1 & Hb' & Hs' & _ & _ & Hsc & Hot).
  rewrite Hs in Hs'. injection Hs' as <-.
  assert (b' = b) by congruence. subst b'.
  pose proof (absorb_score_nonneg b0 b _ Hok (double_of_uint32_nonneg w)) as Hsn.
  exists g', (snd (absorb b (double_of_uint32 w))).
  split; [exact Hs|]. split; [exact HI'|]. split; [exact Hsn|].
  split; [exact Hsc|]. split; [exact Hot|].
  destruct HI as (_ & HA & HB).
  destruct (mover (turn g)); cbn [player_of other] in Hsc, Hot; rewrite Hsc, Hot; split;
    try (apply leb_refl; apply nonneg_is_num; assumption);
    apply add_nonneg_ge; assumption.
Qed.

(** Any number of turns lowers no score. *)
Lemma run_scores ws : forall g,
  Inv g ->
  exists g',
    run g ws = Some g' /\
    (score_ (player_A g) <=? score_ (player_A g')) = true /\
    (score_ (player_B g) <=? score_ (player_B g')) = true.
Proof.
  induction ws as [|w ws IH]; intros g HI; cbn [run].
  - exists g. destruct HI as (_ & HA & HB).
    split; [reflexivity|]. split; apply leb_refl, nonneg_is_num; assumption.
  - destruct (step_scores g w HI) as (g1 & s & Hs & HI1 & _ & _ & _ & HA & HB).
    rewrite Hs. destruct (IH g1 HI1) as (g' & Hr & HA' & HB').
    exists g'. split; [exact Hr|].
    split; eapply leb_trans; eassumption.
Qed.

Lemma run_app ws ws' : forall g,
  run g (ws ++ ws') = match run g ws with Some g1 => run g1 ws' | None => None end.
Proof.
  induction ws as [|w ws IH]; intros g; cbn [run app]; [reflexivity|].
  destruct (step g w); [apply IH|reflexivity].
Qed.

(** ** The test cases of the repository *)

Example test_green :
  let '(b1, s1) := absorb (makeGreenBox 0) 3 in
  let '(b2, s2) := absorb b1 12 in
  let '(b3, s3) := absorb b2 15 in
  (s1, s2, s3) = (9, 56.25, 100).
Proof. reflexivity. Qed.

Example test_blue :
  let '(b1, s1) := absorb (makeBlueBox 0x1.999999999999ap-3) 1 in
  let '(b2, s2) := absorb b1 7 in
  let '(b3, s3) := absorb b2 23 in
  (s1, s2, s3) = (4, 43, 323).
Proof. reflexivity. Qed.

(** ** The order of the additions

    Addition in binary64 is not associative, so the specification fixes
    the order in which sums are taken: [weight_] is the initial weight with
    the absorbed values added one after the other, and a green box sums
    its last three weights newest first.  Regrouped sums can differ. *)

Remark accumulate_regrouped :
  accumulate [1; 0x1p53] 1 = 9007199254740994 /\
  1 + accumulate [1; 0x1p53] 0 = 9007199254740992.
Proof. split; reflexivity. Qed.

Remark mean_oldest_first :
  GreenBox.mean (GreenBox.last_three [0x1p53; 1; 1]) = 3002399751580331.5 /\
  GreenBox.mean [0x1p53; 1; 1] = 3002399751580330.5.
Proof. split; reflexivity. Qed.

(** * Part V: the properties of the specification *)

(** C1.  On a non-empty history the score of a green box is the square of
    the mean of the last [min(n, 3)] absorbed weights, summed newest first:
    it is [std::pow(m, 2)] for that mean [m], whatever the library's [pow]
    is, hence the rounded square [m * m] when [pow] squares with correct
    rounding; and it does not depend on what was absorbed before the last
    three. *)
Theorem GreenBox_score_is_recent_mean_squared
  (pow : double -> double -> double) (h : list double) :
  h <> [] ->
  GreenBox.calculateScore_with pow h = pow (mean_of_recent h) 2 /\
  ((forall x, pow x 2 = x * x) ->
   GreenBox.calculateScore_with pow h = mean_of_recent h * mean_of_recent h) /\
  (forall older recent older',
      h = older ++ recent -> length recent = 3%nat ->
      GreenBox.calculateScore_with pow (older' ++ recent) =
      GreenBox.calculateScore_with pow h).
Proof.
  intros Hne. split; [apply GreenBox_score_with_recent; exact Hne|]. split.
  - intros Hpow. rewrite GreenBox_score_with_recent by exact Hne. apply Hpow.
  - intros older recent older' -> Hlen.
    assert (Hr : recent <> []) by (destruct recent; [discriminate|congruence]).
    rewrite !GreenBox_score_with_recent
      by (intros E; apply app_eq_nil in E; destruct E; contradiction).
    rewrite !mean_of_recent_app by assumption. reflexivity.
Qed.

Lemma GreenBox_score_is_recent_mean_squared_witness :
  [3; 12; 15] <> [] /\
  GreenBox.calculateScore_with (fun x _ => x * x) [3; 12; 15] =
    mean_of_recent [3; 12; 15] * mean_of_recent [3; 12; 15] /\
  mean_of_recent [3; 12; 15] = 10 /\
  GreenBox.calculateScore_with (fun x _ => x * x) ([1; 2] ++ [3; 12; 15]) =
    GreenBox.calculateScore_with (fun x _ => x * x) [3; 12; 15].
Proof.
  split; [discriminate|].
  destruct (GreenBox_score_is_recent_mean_squared (fun x _ => x * x) [3; 12; 15])
    as (_ & H2 & H3); [discriminate|].
  split; [apply H2; reflexivity|]. split; [reflexivity|].
  apply (H3 [] [3; 12; 15] [1; 2]); reflexivity.
Defined.

(** C2, as it holds.  On a non-empty history without NaN the score of a
    blue box is Cantor's pairing function
    [0.5 * (a + b) * (a + b + 1) + b] of a least element [a] and a
    greatest element [b] of the whole history; reordering a history
    without NaN and without [-0] does not change it; and
    [pairing(0, 1) = 2]. *)
Theorem BlueBox_score_is_cantor_of_min_max (h : list double) :
  h <> [] -> Forall (fun x => is_num x = true) h ->
  (exists a b,
      In a h /\ In b h /\
      (forall x, In x h -> (a <=? x) = true /\ (x <=? b) = true) /\
      BlueBox.calculateScore h = 0.5 * (a + b) * (a + b + 1) + b) /\
  (forall h', Forall (fun x => plain x = true) h -> Permutation h h' ->
              BlueBox.calculateScore h' = BlueBox.calculateScore h) /\
  (forall k1 k2, BlueBox.cantorFunction k1 k2 = 0.5 * (k1 + k2) * (k1 + k2 + 1) + k2) /\
  0.5 * (0 + 1) * (0 + 1 + 1) + 1 = 2.
Proof.
  intros Hne Hnum. split; [|split; [|split; reflexivity]].
  - destruct (BlueBox_score_min_max h Hne Hnum)
      as (a & b & (Ea & La & _) & (Eb & Gb & _) & E).
    exists a, b. apply nth_error_In in Ea, Eb. repeat split; auto.
  - intros h' Hpl HP. symmetry. apply BlueBox_score_permutation; assumption.
Qed.

Lemma BlueBox_score_is_cantor_of_min_max_witness :
  [7; 1; 23] <> [] /\
  Forall (fun x => is_num x = true) [7; 1; 23] /\
  (exists a b,
      In a [7; 1; 23] /\ In b [7; 1; 23] /\
      (forall x, In x [7; 1; 23] -> (a <=? x) = true /\ (x <=? b) = true) /\
      BlueBox.calculateScore [7; 1; 23] = 0.5 * (a + b) * (a + b + 1) + b) /\
  (forall h', Forall (fun x => plain x = true) [7; 1; 23] -> Permutation [7; 1; 23] h' ->
              BlueBox.calculateScore h' = BlueBox.calculateScore [7; 1; 23]) /\
  (forall k1 k2, BlueBox.cantorFunction k1 k2 = 0.5 * (k1 + k2) * (k1 + k2 + 1) + k2) /\
  0.5 * (0 + 1) * (0 + 1 + 1) + 1 = 2.
Proof.
  split; [discriminate|]. split; [repeat constructor|].
  apply (BlueBox_score_is_cantor_of_min_max [7; 1; 23]).
  - discriminate.
  - repeat constructor.
Defined.

(** C2, as stated, fails on a history that holds a NaN: [nan, 1, 2] and
    [1, nan, 2] are the same weights in another order, the first scores
    NaN and the second [8 = pairing(1, 2)]; and [nan, 1, 2] has no least
    element for the score to be the pairing of. *)
Lemma BlueBox_score_with_nan_depends_on_order :
  [nan; 1; 2] <> [] /\
  Permutation [nan; 1; 2] [1; nan; 2] /\
  PrimFloat.is_nan (BlueBox.calculateScore [nan; 1; 2]) = true /\
  BlueBox.calculateScore [1; nan; 2] = 8 /\
  BlueBox.calculateScore [nan; 1; 2] <> BlueBox.calculateScore [1; nan; 2] /\
  ~ (exists a b,
        In a [nan; 1; 2] /\ In b [nan; 1; 2] /\
        (forall x, In x [nan; 1; 2] -> (a <=? x) = true /\ (x <=? b) = true) /\
        BlueBox.calculateScore [nan; 1; 2] = 0.5 * (a + b) * (a + b + 1) + b).
Proof.
  split; [discriminate|]. split; [apply perm_swap|].
  split; [reflexivity|]. split; [reflexivity|]. split.
  - intros E. apply (f_equal PrimFloat.is_nan) in E. vm_compute in E. discriminate.
  - intros (a & b & _ & _ & H & _).
    destruct (H nan (or_introl eq_refl)) as [H1 _].
    apply leb_is_num in H1. destruct H1 as [_ H1]. vm_compute in H1. discriminate.
Qed.

(** With both zeros in the history the order shows in the sign of a zero
    score. *)
Remark BlueBox_score_signed_zeros :
  BlueBox.calculateScore [neg_zero; 0] = neg_zero /\
  BlueBox.calculateScore [0; neg_zero] = 0.
Proof. split; reflexivity. Qed.

(** C3.  In every turn of a game the acting player selects the box of
    least [weight_] among the four boxes, the first such box in the
    construction order Green(0.0), Green(0.1), Blue(0.2), Blue(0.3); that
    box absorbs the token of the turn (after the turn the box at the
    selected index is the one [absorb] leaves: the token appended to its
    history and added to its weight) and the score it returns is added to
    the score of the acting player.  The state [g] is the one reached
    after any input [ws]; [w] is the next token. *)
Theorem takeTurn_selects_first_lightest (ws : list Z) (w : Z) :
  exists g g' b,
    run newGame ws = Some g /\ step g w = Some g' /\
    map kind (boxes g) = [Green; Green; Blue; Blue] /\
    Forall2 (fun b0 c => weight_ c = accumulate (absorbed_weights_ c) (weight_ b0))
      initial_boxes (boxes g) /\
    let i := min_element Box_lt (boxes g) in
    nth_error (boxes g) i = Some b /\
    (forall c, In c (boxes g) -> (weight_ b <=? weight_ c) = true) /\
    (forall j c, (j < i)%nat -> nth_error (boxes g) j = Some c ->
                 (weight_ b <? weight_ c) = true) /\
    boxes g' = set_nth i (fst (absorb b (double_of_uint32 w))) (boxes g) /\
    score_ (player_of (mover (turn g)) g') =
      score_ (player_of (mover (turn g)) g) + snd (absorb b (double_of_uint32 w)) /\
    nth_error (boxes g') i = Some (fst (absorb b (double_of_uint32 w))) /\
    absorbed_weights_ (fst (absorb b (double_of_uint32 w))) =
      absorbed_weights_ b ++ [double_of_uint32 w] /\
    weight_ (fst (absorb b (double_of_uint32 w))) = weight_ b + double_of_uint32 w /\
    snd (absorb b (double_of_uint32 w)) =
      calculateScore (fst (absorb b (double_of_uint32 w))).
Proof.
  destruct (run_newGame ws) as (g & Hr & HI & Ht).
  destruct (step_eq g w (Inv_boxes_nonempty g HI)) as (b & g' & Hb & Hs & Hbs & _ & Hsc & _).
  destruct (first_least_weight g HI) as (b' & Hb' & Hle & Hlt).
  assert (b' = b) by congruence. subst b'.
  exists g, g', b.
  split; [exact Hr|]. split; [exact Hs|]. split; [apply Inv_kinds; exact HI|].
  split.
  { destruct HI as (HB & _). eapply Forall2_impl; [|exact HB].
    intros b0 c Hc. apply Hc. }
  assert (Hin : (min_element Box_lt (boxes g) < length (boxes g))%nat)
    by (apply nth_error_Some; congruence).
  cbv zeta. repeat split; try assumption.
  rewrite Hbs. apply nth_error_set_nth_eq. exact Hin.
Qed.

(** C4.  [absorb] appends the weight to the history and adds it to
    [weight_]; hence after any sequence of calls the history is the
    sequence absorbed and [weight_] is the initial weight plus the absorbed
    values, added in absorption order; and a non-negative weight never
    lowers [weight_] (the sum being a number, that is, not
    [-infinity + infinity]). *)
Theorem absorb_keeps_weight_sum :
  (forall b w,
      kind (fst (absorb b w)) = kind b /\
      absorbed_weights_ (fst (absorb b w)) = absorbed_weights_ b ++ [w] /\
      weight_ (fst (absorb b w)) = weight_ b + w) /\
  (forall k initial_weight ws,
      let b := absorb_all (mkBox k initial_weight []) ws in
      absorbed_weights_ b = ws /\ weight_ b = accumulate ws initial_weight) /\
  (forall b w,
      (0 <=? w) = true -> is_num (weight_ b + w) = true ->
      (weight_ b <=? weight_ (fst (absorb b w))) = true).
Proof.
  split; [|split].
  - intros b w. rewrite absorb_fst. repeat split.
  - intros k init ws. cbv zeta. destruct (absorb_all_spec k init ws) as (_ & H1 & H2).
    split; assumption.
  - intros b w Hw Hn. rewrite absorb_fst. cbn [weight_]. apply add_ge; assumption.
Qed.

Lemma absorb_keeps_weight_sum_witness :
  (0 <=? 7) = true /\
  is_num (weight_ (makeBlueBox (-2.5)) + 7) = true /\
  (weight_ (makeBlueBox (-2.5)) <=? weight_ (fst (absorb (makeBlueBox (-2.5)) 7))) = true.
Proof.
  split; [reflexivity|]. split; [reflexivity|].
  destruct absorb_keeps_weight_sum as (_ & _ & H).
  apply (H (makeBlueBox (-2.5)) 7); reflexivity.
Defined.

(** C5.  The token at index [i] is played by player A when [i] is even
    and by player B when [i] is odd, starting with player A; so of [L]
    tokens player A plays [ceil(L/2)] and player B [floor(L/2)]. *)
Theorem play_alternates_players (ws : list Z) :
  let L := length ws in
  mover 0 = Player_A /\
  movers newGame ws = map mover (seq 0 L) /\
  (forall i w, nth_error ws i = Some w ->
     nth_error (movers newGame ws) i =
       Some (if Nat.even i then Player_A else Player_B) /\
     exists g g',
       run newGame (firstn i ws) = Some g /\ turn g = i /\ step g w = Some g' /\
       match mover i with
       | Player_A =>
           takeTurn (player_A g) w (boxes g) = Some (player_A g', boxes g') /\
           player_B g' = player_B g
       | Player_B =>
           takeTurn (player_B g) w (boxes g) = Some (player_B g', boxes g') /\
           player_A g' = player_A g
       end) /\
  turns_taken Player_A (movers newGame ws) = ((L + 1) / 2)%nat /\
  turns_taken Player_B (movers newGame ws) = (L / 2)%nat.
Proof.
  cbv zeta. rewrite movers_newGame.
  split; [reflexivity|]. split; [reflexivity|]. split.
  - intros i w Hi.
    assert (Hlt : (i < length ws)%nat) by (apply nth_error_Some; congruence).
    split.
    { rewrite nth_error_map, nth_error_seq.
      replace (i <? length ws)%nat with true by (symmetry; apply Nat.ltb_lt; exact Hlt).
      reflexivity. }
    destruct (run_newGame (firstn i ws)) as (g & Hr & HI & Ht).
    rewrite length_firstn in Ht. replace (Nat.min i (length ws)) with i in Ht by lia.
    destruct (step_eq g w (Inv_boxes_nonempty g HI)) as (b & g' & _ & Hs & _).
    exists g, g'. split; [exact Hr|]. split; [exact Ht|]. split; [exact Hs|].
    unfold step in Hs. rewrite Ht in Hs.
    destruct (mover i).
    + destruct (takeTurn (player_A g) w (boxes g)) as [[p bs]|]; [|discriminate].
      injection Hs as <-. split; reflexivity.
    + destruct (takeTurn (player_B g) w (boxes g)) as [[p bs]|]; [|discriminate].
      injection Hs as <-. split; reflexivity.
  - pose proof (turns_taken_seq (length ws)) as [Hsum Hpar]. cbv zeta in Hsum, Hpar.
    destruct (Nat.even (length ws)) eqn:E.
    + apply Nat.even_spec in E. destruct E as [k E].
      split.
      * apply Nat.div_unique with (r := 1%nat); lia.
      * apply Nat.div_unique with (r := 0%nat); lia.
    + assert (O : Nat.odd (length ws) = true) by (rewrite <- Nat.negb_even, E; reflexivity).
      apply Nat.odd_spec in O. destruct O as [k O].
      split.
      * apply Nat.div_unique with (r := 0%nat); lia.
      * apply Nat.div_unique with (r := 1%nat); lia.
Qed.

(** C6.  [play({1, 1, 2, 3})] returns [(13.0, 25.0)]. *)
Theorem play_fibonacci4 : play [1; 1; 2; 3]%Z = Some (13, 25).
Proof. vm_compute. reflexivity. Qed.

(** C7.  [play({1, 1, 2, 3, 5, 8, 13, 21})] returns [(155.0, 366.25)]. *)
Theorem play_fibonacci8 : play [1; 1; 2; 3; 5; 8; 13; 21]%Z = Some (155, 366.25).
Proof. vm_compute. reflexivity. Qed.

(** C8.  On the empty input [play] returns [(0.0, 0.0)] and no box absorbs
    anything: the loop leaves the initial state, whose boxes have empty
    histories. *)
Theorem play_empty :
  play [] = Some (0, 0) /\
  run newGame [] = Some newGame /\
  boxes newGame = initial_boxes /\
  Forall (fun b => absorbed_weights_ b = []) initial_boxes.
Proof.
  split; [reflexivity|]. split; [reflexivity|]. split; [reflexivity|].
  repeat constructor.
Qed.

(** C9.  A player starts with score [0.0]; both scoring functions return a
    non-negative score on non-negative weights; in every turn of a game
    the score added to the acting player is non-negative and no score
    decreases; hence no score decreases over any number of turns. *)
Theorem player_scores_never_decrease (ws : list Z) :
  score_ newPlayer = 0 /\
  (forall h, Forall (fun x => (0 <=? x) = true) h ->
             (0 <=? GreenBox.calculateScore h) = true /\
             (0 <=? BlueBox.calculateScore h) = true) /\
  (forall w, exists g g' s,
    run newGame ws = Some g /\ step g w = Some g' /\
    (0 <=? s) = true /\
    score_ (player_of (mover (turn g)) g') = score_ (player_of (mover (turn g)) g) + s /\
    player_of (other (mover (turn g))) g' = player_of (other (mover (turn g))) g /\
    (score_ (player_A g) <=? score_ (player_A g')) = true /\
    (score_ (player_B g) <=? score_ (player_B g')) = true) /\
  (forall ws', exists g g',
    run newGame ws = Some g /\ run newGame (ws ++ ws') = Some g' /\
    (score_ (player_A g) <=? score_ (player_A g')) = true /\
    (score_ (player_B g) <=? score_ (player_B g')) = true).
Proof.
  split; [reflexivity|]. split; [|split].
  - intros h Hh. split; [apply GreenBox_score_nonneg|apply BlueBox_score_nonneg]; exact Hh.
  - intros w. destruct (run_newGame ws) as (g & Hr & HI & _).
    destruct (step_scores g w HI) as (g' & s & Hs & _ & Hsn & Hsc & Hot & HA & HB).
    exists g, g', s. repeat split; assumption.
  - intros ws'. destruct (run_newGame ws) as (g & Hr & HI & _).
    destruct (run_scores ws' g HI) as (g' & Hr' & HA & HB).
    exists g, g'. rewrite run_app, Hr. repeat split; assumption.
Qed.

(** C10.  A call of [takeTurn] replaces the selected box by the box that
    absorbed the token and leaves every other box as it was; in a game
    there are four boxes, and the player who does not act keeps its
    score. *)
Theorem takeTurn_changes_one_box :
  (forall p w bs,
      bs <> [] ->
      exists b p' bs',
        let i := min_element Box_lt bs in
        takeTurn p w bs = Some (p', bs') /\
        nth_error bs i = Some b /\
        nth_error bs' i = Some (fst (absorb b (double_of_uint32 w))) /\
        fst (absorb b (double_of_uint32 w)) <> b /\
        length bs' = length bs /\
        (forall j, j <> i -> nth_error bs' j = nth_error bs j)) /\
  (forall ws w,
      exists g g',
        run newGame ws = Some g /\ step g w = Some g' /\
        length (boxes g) = 4%nat /\ length (boxes g') = 4%nat /\
        (forall j, j <> min_element Box_lt (boxes g) ->
                   nth_error (boxes g') j = nth_error (boxes g) j) /\
        player_of (other (mover (turn g))) g' = player_of (other (mover (turn g))) g).
Proof.
  split.
  - intros p w bs Hne.
    destruct (takeTurn_eq p w bs Hne) as (b & Hb & ->).
    exists b. eexists _, _. cbv zeta. split; [reflexivity|]. split; [exact Hb|].
    assert (Hlt : (min_element Box_lt bs < length bs)%nat)
      by (apply nth_error_Some; congruence).
    split; [apply nth_error_set_nth_eq; exact Hlt|].
    split; [apply absorb_changes_box|].
    split; [apply length_set_nth|].
    intros j Hj. apply nth_error_set_nth_neq. congruence.
  - intros ws w.
    destruct (run_newGame ws) as (g & Hr & HI & Ht).
    destruct (step_Inv g w HI) as (b0 & b & g' & _ & _ & _ & Hs & HI').
    destruct (step_eq g w (Inv_boxes_nonempty g HI)) as (b' & g1 & Hb' & Hs' & Hbs & _ & _ & Hot).
    rewrite Hs in Hs'. injection Hs' as <-.
    exists g, g'. split; [exact Hr|]. split; [exact Hs|].
    split; [apply Inv_length; exact HI|]. split; [apply Inv_length; exact HI'|].
    split; [|exact Hot].
    intros j Hj. rewrite Hbs. apply nth_error_set_nth_neq. congruence.
Qed.

Lemma takeTurn_changes_one_box_witness :
  initial_boxes <> [] /\
  exists b p' bs',
    let i := min_element Box_lt initial_boxes in
    takeTurn newPlayer 1 initial_boxes = Some (p', bs') /\
    nth_error initial_boxes i = Some b /\
    nth_error bs' i = Some (fst (absorb b (double_of_uint32 1))) /\
    fst (absorb b (double_of_uint32 1)) <> b /\
    length bs' = length initial_boxes /\
    (forall j, j <> i -> nth_error bs' j = nth_error initial_boxes j).
Proof.
  split; [discriminate|].
  destruct takeTurn_changes_one_box as (H & _).
  apply (H newPlayer 1%Z initial_boxes). discriminate.
Defined.

(** * Part VI: further properties of the code *)

(** ** The order on boxes *)

Lemma ltb_asym x y : (x <? y) = true -> (y <? x) = false.
Proof.
  intros H. destruct (y <? x) eqn:E; [|reflexivity]. exfalso. to_rank.
  destruct (rank (Prim2SF x)) as [[? ?] ?], (rank (Prim2SF y)) as [[? ?] ?].
  cbn in H, E. lia.
Qed.

Lemma ltb_irrefl x : (x <? x) = false.
Proof.
  destruct (x <? x) eqn:E; [|reflexivity].
  pose proof (ltb_asym x x E). congruence.
Qed.

Lemma ltb_trans x y z : (x <? y) = true -> (y <? z) = true -> (x <? z) = true.
Proof. intros H1 H2. eapply ltb_leb_trans; [exact H1|apply ltb_leb; exact H2]. Qed.

Lemma leb_not_ltb x y : (x <=? y) = true -> (y <? x) = false.
Proof.
  intros H. destruct (y <? x) eqn:E; [|reflexivity]. exfalso. to_rank.
  destruct (rank (Prim2SF x)) as [[? ?] ?], (rank (Prim2SF y)) as [[? ?] ?].
  destruct H as [H|H]; cbn in H, E; [lia|]. inversion H; subst. lia.
Qed.

Lemma ltb_is_num x y : (x <? y) = true -> is_num x = true /\ is_num y = true.
Proof.
  rewrite ltb_spec. intros H. apply SFltb_not_nan in H.
  split; apply is_num_spec; tauto.
Qed.

Lemma ltb_nan x y : is_num x = false -> (x <? y) = false /\ (y <? x) = false.
Proof.
  intros H. split.
  - destruct (x <? y) eqn:E; [|reflexivity]. apply ltb_is_num in E. destruct E. congruence.
  - destruct (y <? x) eqn:E; [|reflexivity]. apply ltb_is_num in E. destruct E. congruence.
Qed.

(** X1.  [Box::operator<] is irreflexive, asymmetric and transitive; on
    boxes whose weights are numbers, being neither lighter nor heavier is
    transitive too, so it is a strict weak ordering, as [std::min_element]
    asks.  A box whose weight is NaN is neither lighter nor heavier than any
    box, and with such a box that transitivity is lost. *)
Theorem Box_lt_strict_weak_order :
  (forall a, Box_lt a a = false) /\
  (forall a b, Box_lt a b = true -> Box_lt b a = false) /\
  (forall a b c, Box_lt a b = true -> Box_lt b c = true -> Box_lt a c = true) /\
  (forall a b c,
      is_num (weight_ a) = true -> is_num (weight_ b) = true ->
      is_num (weight_ c) = true ->
      Box_equiv a b = true -> Box_equiv b c = true -> Box_equiv a c = true) /\
  (forall a b, is_num (weight_ a) = false -> Box_equiv a b = true) /\
  (exists a b c,
      Box_equiv a b = true /\ Box_equiv b c = true /\ Box_equiv a c = false).
Proof.
  unfold Box_equiv, Box_lt. repeat split.
  - intros a. apply ltb_irrefl.
  - intros a b. apply ltb_asym.
  - intros a b c. apply ltb_trans.
  - intros a b c Ha Hb Hc Hab Hbc.
    apply andb_true_iff in Hab, Hbc. rewrite !negb_true_iff in Hab, Hbc.
    destruct Hab as [Hab Hba], Hbc as [Hbc Hcb].
    apply ltb_false_leb in Hab, Hba, Hbc, Hcb; try assumption.
    apply andb_true_iff. rewrite !negb_true_iff. split; apply leb_not_ltb.
    + eapply leb_trans; eassumption.
    + eapply leb_trans; eassumption.
  - intros a b Ha. destruct (ltb_nan (weight_ a) (weight_ b) Ha) as [-> ->]. reflexivity.
  - exists (makeGreenBox 1), (makeGreenBox nan), (makeGreenBox 2).
    repeat split; reflexivity.
Qed.

Lemma Box_lt_strict_weak_order_witness :
  Box_lt (makeGreenBox 0) (makeGreenBox 1) = true /\
  Box_lt (makeGreenBox 1) (makeBlueBox 2) = true /\
  Box_lt (makeGreenBox 0) (makeBlueBox 2) = true.
Proof.
  split; [reflexivity|]. split; [reflexivity|].
  destruct Box_lt_strict_weak_order as (_ & _ & H & _).
  apply (H (makeGreenBox 0) (makeGreenBox 1) (makeBlueBox 2)); reflexivity.
Defined.

(** ** Scores of the boxes *)

Lemma SFmul_self_signed x :
  x <> S754_nan -> SFnonneg (SF64mul x x) = true.
Proof.
  destruct x as [[]|[]| |[] m e]; try congruence; intros _; try reflexivity;
    cbn [SF64mul SFmul xorb]; apply binary_round_aux_nonneg; lia.
Qed.

Lemma mul_self_num x : is_num x = true -> nonneg (x * x) = true.
Proof.
  rewrite is_num_spec, nonneg_spec, mul_spec. apply SFmul_self_signed.
Qed.

Lemma mul_self_not_neg x : (x * x <? 0) = false.
Proof.
  destruct (is_num x) eqn:E.
  - apply leb_not_ltb. apply (mul_self_num x E).
  - destruct (x * x <? 0) eqn:L; [|reflexivity].
    apply ltb_is_num in L. destruct L as [L _].
    apply is_num_spec in L. rewrite mul_spec in L.
    assert (Prim2SF x = S754_nan).
    { destruct (Prim2SF x) eqn:P; try reflexivity;
        exfalso; assert (N : is_num x = true) by (apply is_num_spec; congruence);
        congruence. }
    rewrite H in L. exfalso. apply L. reflexivity.
Qed.

(** X9.  The score of a green box is never below zero, whatever it
    absorbed (negative weights, infinities, NaN): it is a square. *)
Theorem GreenBox_score_never_negative (h : list double) :
  (GreenBox.calculateScore h <? 0) = false.
Proof.
  unfold GreenBox.calculateScore. destruct h as [|a t]; [reflexivity|].
  destruct (length (a :: t) <? 3)%nat; apply mul_self_not_neg.
Qed.

(** X3.  On non-negative arguments [cantorFunction] returns a number that
    is at least zero and at least its second argument; it is never NaN, not
    even on infinities. *)
Theorem cantorFunction_bounds (k1 k2 : double) :
  (0 <=? k1) = true -> (0 <=? k2) = true ->
  (0 <=? BlueBox.cantorFunction k1 k2) = true /\
  (k2 <=? BlueBox.cantorFunction k1 k2) = true.
Proof.
  intros H1 H2. split; [apply cantor_nonneg; assumption|].
  unfold BlueBox.cantorFunction. rewrite add_comm.
  apply add_nonneg_ge; [exact H2|].
  apply half_times_succ_nonneg. apply add_nonneg; assumption.
Qed.

Lemma cantorFunction_bounds_witness :
  (0 <=? 1) = true /\ (0 <=? 7) = true /\
  (0 <=? BlueBox.cantorFunction 1 7) = true /\
  (7 <=? BlueBox.cantorFunction 1 7) = true.
Proof.
  split; [reflexivity|]. split; [reflexivity|].
  apply (cantorFunction_bounds 1 7); reflexivity.
Defined.

(** ** The running minimum and maximum *)

Section Candidates.
Context {A : Type}.
Variable comp : A -> A -> bool.

(** The element [min_element] ends on is the running minimum of the scan. *)
Lemma min_element_loop_value l : forall pre smallest vs d,
  nth_error pre smallest = Some vs ->
  nth (min_element_loop comp smallest vs (length pre) l) (pre ++ l) d =
  fold_left (fun v x => if comp x v then x else v) l vs.
Proof.
  induction l as [|x l IH]; intros pre smallest vs d Hnth; cbn [min_element_loop fold_left].
  - rewrite app_nil_r. apply nth_error_nth. exact Hnth.
  - assert (Hlt : (smallest < length pre)%nat) by (apply nth_error_Some; congruence).
    replace (pre ++ x :: l) with ((pre ++ [x]) ++ l) by (rewrite <- app_assoc; reflexivity).
    replace (S (length pre)) with (length (pre ++ [x])) by (rewrite length_app; cbn; lia).
    destruct (comp x vs).
    + apply IH. rewrite nth_error_app2 by lia. rewrite Nat.sub_diag. reflexivity.
    + apply IH. rewrite nth_error_app1 by lia. exact Hnth.
Qed.

Lemma max_element_loop_value l : forall pre largest vl d,
  nth_error pre largest = Some vl ->
  nth (max_element_loop comp largest vl (length pre) l) (pre ++ l) d =
  fold_left (fun v x => if comp v x then x else v) l vl.
Proof.
  induction l as [|x l IH]; intros pre largest vl d Hnth; cbn [max_element_loop fold_left].
  - rewrite app_nil_r. apply nth_error_nth. exact Hnth.
  - assert (Hlt : (largest < length pre)%nat) by (apply nth_error_Some; congruence).
    replace (pre ++ x :: l) with ((pre ++ [x]) ++ l) by (rewrite <- app_assoc; reflexivity).
    replace (S (length pre)) with (length (pre ++ [x])) by (rewrite length_app; cbn; lia).
    destruct (comp vl x).
    + apply IH. rewrite nth_error_app2 by lia. rewrite Nat.sub_diag. reflexivity.
    + apply IH. rewrite nth_error_app1 by lia. exact Hnth.
Qed.

Lemma min_element_snoc l w d :
  l <> [] ->
  nth (min_element comp (l ++ [w])) (l ++ [w]) d =
  let v := nth (min_element comp l) l d in if comp w v then w else v.
Proof.
  destruct l as [|x l]; [congruence|]. intros _. cbv zeta.
  cbn [app min_element].
  pose proof (min_element_loop_value (l ++ [w]) [x] 0%nat x d eq_refl) as H1.
  pose proof (min_element_loop_value l [x] 0%nat x d eq_refl) as H2.
  cbn [length app] in H1, H2. rewrite H1, H2, fold_left_app. reflexivity.
Qed.

Lemma max_element_snoc l w d :
  l <> [] ->
  nth (max_element comp (l ++ [w])) (l ++ [w]) d =
  let v := nth (max_element comp l) l d in if comp v w then w else v.
Proof.
  destruct l as [|x l]; [congruence|]. intros _. cbv zeta.
  cbn [app max_element].
  pose proof (max_element_loop_value (l ++ [w]) [x] 0%nat x d eq_refl) as H1.
  pose proof (max_element_loop_value l [x] 0%nat x d eq_refl) as H2.
  cbn [length app] in H1, H2. rewrite H1, H2, fold_left_app. reflexivity.
Qed.
End Candidates.

(** X4.  The score of a blue box can be kept up to date from the smallest
    and the largest weight alone: after one absorption it is
    [cantorFunction w w]; after absorbing [w] on top of a non-empty history
    with smallest [a] and largest [b] it is [cantorFunction] of
    [w < a ? w : a] and [b < w ? w : b].  This holds for every double, NaN
    included. *)
Theorem BlueBox_score_incremental :
  (forall w, BlueBox.calculateScore [w] = BlueBox.cantorFunction w w) /\
  (forall h w,
      h <> [] ->
      let smallest := nth (min_element PrimFloat.ltb h) h 0 in
      let largest := nth (max_element PrimFloat.ltb h) h 0 in
      BlueBox.calculateScore (h ++ [w]) =
      BlueBox.cantorFunction (if w <? smallest then w else smallest)
                             (if largest <? w then w else largest)).
Proof.
  split; [reflexivity|].
  intros h w Hne. cbv zeta. unfold BlueBox.calculateScore.
  destruct (h ++ [w]) eqn:E; [destruct h; discriminate|]. rewrite <- E.
  rewrite (min_element_snoc PrimFloat.ltb h w 0 Hne).
  rewrite (max_element_snoc PrimFloat.ltb h w 0 Hne). reflexivity.
Qed.

Lemma BlueBox_score_incremental_witness :
  [1; 7] <> [] /\
  BlueBox.calculateScore ([1; 7] ++ [23]) =
  BlueBox.cantorFunction (if 23 <? 1 then 23 else 1) (if 7 <? 23 then 23 else 7).
Proof.
  split; [discriminate|].
  destruct BlueBox_score_incremental as (_ & H).
  apply (H [1; 7] 23). discriminate.
Defined.

(** ** Whole games *)

(** X5.  [play] returns on every input (the vector of boxes is never
    empty when [takeTurn] dereferences the result of [min_element]), and
    both returned scores are numbers at least zero. *)
Theorem play_returns_scores (ws : list Z) :
  exists a b,
    play ws = Some (a, b) /\ (0 <=? a) = true /\ (0 <=? b) = true.
Proof.
  destruct (run_newGame ws) as (g & Hr & (_ & HA & HB) & _).
  exists (score_ (player_A g)), (score_ (player_B g)).
  unfold play. rewrite Hr. repeat split; assumption.
Qed.

Lemma concat_set_nth bs : forall i b b' w,
  nth_error bs i = Some b ->
  absorbed_weights_ b' = absorbed_weights_ b ++ [w] ->
  Permutation (concat (map absorbed_weights_ (set_nth i b' bs)))
              (w :: concat (map absorbed_weights_ bs)).
Proof.
  induction bs as [|c bs IH]; intros [|i] b b' w Hb Hh; cbn in Hb; try discriminate.
  - injection Hb as ->. cbn [set_nth map concat]. rewrite Hh.
    change (w :: absorbed_weights_ b ++ concat (map absorbed_weights_ bs))
      with ((w :: absorbed_weights_ b) ++ concat (map absorbed_weights_ bs)).
    apply Permutation_app_tail. apply Permutation_sym, Permutation_cons_append.
  - cbn [set_nth map concat].
    eapply Permutation_trans.
    + apply Permutation_app_head. eapply IH; eassumption.
    + apply Permutation_sym, Permutation_middle.
Qed.

Lemma run_all_absorbed ws : forall g,
  Inv g ->
  exists g',
    run g ws = Some g' /\
    Permutation (all_absorbed g') (all_absorbed g ++ map double_of_uint32 ws).
Proof.
  induction ws as [|w ws IH]; intros g HI; cbn [run map].
  - exists g. split; [reflexivity|]. rewrite app_nil_r. apply Permutation_refl.
  - destruct (step_Inv g w HI) as (b0 & b & g1 & _ & Hb & _ & Hs & HI1).
    destruct (step_eq g w (Inv_boxes_nonempty g HI)) as (b' & g1' & Hb' & Hs' & Hbs & _).
    rewrite Hs in Hs' |- *. injection Hs' as <-.
    destruct (IH g1 HI1) as (g' & Hr & HP).
    exists g'. split; [exact Hr|].
    eapply Permutation_trans; [exact HP|].
    eapply Permutation_trans; [|apply Permutation_middle].
    rewrite app_comm_cons. apply Permutation_app_tail.
    unfold all_absorbed. rewrite Hbs.
    eapply concat_set_nth; [exact Hb'|]. reflexivity.
Qed.

(** X6.  Each input weight is used exactly once: when [play] ends, the
    histories of the four boxes together hold the converted input weights,
    each as often as it occurs in the input. *)
Theorem play_uses_each_weight_once (ws : list Z) :
  exists g,
    run newGame ws = Some g /\
    Permutation (all_absorbed g) (map double_of_uint32 ws) /\
    length (all_absorbed g) = length ws.
Proof.
  destruct (run_all_absorbed ws newGame Inv_newGame) as (g & Hr & HP).
  exists g. split; [exact Hr|]. split; [exact HP|].
  rewrite (Permutation_length HP). apply length_map.
Qed.

Lemma turn_score_eq g w b :
  nth_error (boxes g) (min_element Box_lt (boxes g)) = Some b ->
  turn_score g w = Some (snd (absorb b (double_of_uint32 w))).
Proof. intros H. unfold turn_score. rewrite H. reflexivity. Qed.

Lemma run_returned_scores ws : forall g,
  Inv g ->
  exists g',
    run g ws = Some g' /\
    score_ (player_A g') = accumulate (returned_scores Player_A g ws) (score_ (player_A g)) /\
    score_ (player_B g') = accumulate (returned_scores Player_B g ws) (score_ (player_B g)) /\
    length (returned_scores Player_A g ws) = turns_taken Player_A (movers g ws) /\
    length (returned_scores Player_B g ws) = turns_taken Player_B (movers g ws).
Proof.
  induction ws as [|w ws IH]; intros g HI; cbn [run returned_scores movers].
  - exists g. repeat split.
  - destruct (step_Inv g w HI) as (b0 & b & g1 & _ & Hb & _ & Hs & HI1).
    destruct (step_eq g w (Inv_boxes_nonempty g HI))
      as (b' & g1' & Hb' & Hs' & _ & _ & Hsc & Hot).
    rewrite Hs in Hs' |- *. injection Hs' as <-.
    rewrite (turn_score_eq g w b' Hb').
    destruct (IH g1 HI1) as (g' & Hr & HA & HB & LA & LB).
    exists g'. split; [exact Hr|].
    unfold turns_taken in *. cbn [filter].
    destruct (mover (turn g)); cbn [player_of other PlayerId_eqb] in *;
      cbn [accumulate fold_left length]; unfold accumulate in *; cbn [fold_left length];
      rewrite HA, HB, LA, LB, <- ?Hsc, ?Hot; repeat split; reflexivity.
Qed.

(** X7.  The final score of a player is [0.0] with the values [absorb]
    returned in that player's turns added in turn order; player A received
    [ceil(L/2)] of them and player B [floor(L/2)]. *)
Theorem scores_are_sums_of_returned_scores (ws : list Z) :
  exists g,
    run newGame ws = Some g /\
    score_ (player_A g) = accumulate (returned_scores Player_A newGame ws) 0 /\
    score_ (player_B g) = accumulate (returned_scores Player_B newGame ws) 0 /\
    length (returned_scores Player_A newGame ws) = ((length ws + 1) / 2)%nat /\
    length (returned_scores Player_B newGame ws) = (length ws / 2)%nat.
Proof.
  destruct (run_returned_scores ws newGame Inv_newGame) as (g & Hr & HA & HB & LA & LB).
  exists g. split; [exact Hr|]. split; [exact HA|]. split; [exact HB|].
  rewrite LA, LB, movers_newGame.
  pose proof (turns_taken_seq (length ws)) as [Hsum Hpar]. cbv zeta in Hsum, Hpar.
  destruct (Nat.even (length ws)) eqn:E.
  - apply Nat.even_spec in E. destruct E as [k E].
    split; [apply Nat.div_unique with (r := 1%nat)|apply Nat.div_unique with (r := 0%nat)]; lia.
  - assert (O : Nat.odd (length ws) = true) by (rewrite <- Nat.negb_even, E; reflexivity).
    apply Nat.odd_spec in O. destruct O as [k O].
    split; [apply Nat.div_unique with (r := 0%nat)|apply Nat.div_unique with (r := 1%nat)]; lia.
Qed.

Lemma Box_grows_refl b : is_num (weight_ b) = true -> Box_grows b b.
Proof.
  intros H. split; [reflexivity|]. split; [|apply leb_refl; exact H].
  exists []. rewrite app_nil_r. reflexivity.
Qed.

Lemma Box_grows_trans a b c : Box_grows a b -> Box_grows b c -> Box_grows a c.
Proof.
  intros (K1 & (m1 & H1) & W1) (K2 & (m2 & H2) & W2).
  split; [congruence|]. split; [|eapply leb_trans; eassumption].
  exists (m1 ++ m2). rewrite H2, H1, app_assoc. reflexivity.
Qed.

Lemma Forall2_set_nth_same {A} (R : A -> A -> Prop) l : forall i b b',
  Forall (fun x => R x x) l -> nth_error l i = Some b -> R b b' ->
  Forall2 R l (set_nth i b' l).
Proof.
  induction l as [|x l IH]; intros [|i] b b' Hl Hb Hr; cbn in Hb; try discriminate;
    inversion Hl; subst; cbn [set_nth].
  - injection Hb as ->. constructor; [exact Hr|].
    clear -H2. induction H2; constructor; auto.
  - constructor; [assumption|]. eapply IH; eassumption.
Qed.

Lemma Forall2_trans {A} (R : A -> A -> Prop) :
  (forall a b c, R a b -> R b c -> R a c) ->
  forall l1 l2 l3, Forall2 R l1 l2 -> Forall2 R l2 l3 -> Forall2 R l1 l3.
Proof.
  intros HR l1 l2 l3 H12. revert l3.
  induction H12; intros l3 H23; inversion H23; subst; constructor; eauto.
Qed.

Lemma Inv_weights_num g : Inv g -> Forall (fun b => is_num (weight_ b) = true) (boxes g).
Proof.
  intros (HB & _). induction HB as [|b0 b l0 l Hb Hl IH]; constructor; auto.
  apply nonneg_is_num, Hb.
Qed.

Lemma step_grows g w :
  Inv g ->
  exists g', step g w = Some g' /\ Inv g' /\ Forall2 Box_grows (boxes g) (boxes g').
Proof.
  intros HI.
  destruct (step_Inv g w HI) as (b0 & b & g1 & _ & Hb & Hok & Hs & HI1).
  destruct (step_eq g w (Inv_boxes_nonempty g HI)) as (b' & g1' & Hb' & Hs' & Hbs & _).
  rewrite Hs in Hs'. injection Hs' as <-.
  assert (b' = b) by congruence. subst b'.
  exists g1. split; [exact Hs|]. split; [exact HI1|].
  rewrite Hbs. eapply Forall2_set_nth_same; [|exact Hb|].
  - eapply Forall_impl; [|apply Inv_weights_num; exact HI].
    intros c Hc. apply Box_grows_refl; exact Hc.
  - rewrite absorb_fst. split; [reflexivity|]. cbn [absorbed_weights_ weight_].
    split; [eexists; reflexivity|].
    apply add_nonneg_ge; [apply Hok|apply double_of_uint32_nonneg].
Qed.

Lemma run_grows ws : forall g,
  Inv g ->
  exists g', run g ws = Some g' /\ Forall2 Box_grows (boxes g) (boxes g').
Proof.
  induction ws as [|w ws IH]; intros g HI; cbn [run].
  - exists g. split; [reflexivity|].
    pose proof (Inv_weights_num g HI) as H.
    induction H; constructor; auto. apply Box_grows_refl; assumption.
  - destruct (step_grows g w HI) as (g1 & Hs & HI1 & HG). rewrite Hs.
    destruct (IH g1 HI1) as (g' & Hr & HG').
    exists g'. split; [exact Hr|].
    eapply Forall2_trans; [exact Box_grows_trans|exact HG|exact HG'].
Qed.

(** X8.  During a game a box never changes its kind, its history is only
    extended and its weight never decreases; every weight is a number at
    least zero (so [operator<] always compares numbers). *)
Theorem boxes_only_grow (ws ws' : list Z) :
  exists g g',
    run newGame ws = Some g /\ run newGame (ws ++ ws') = Some g' /\
    Forall2 Box_grows (boxes g) (boxes g') /\
    Forall (fun b => (0 <=? weight_ b) = true) (boxes g).
Proof.
  destruct (run_newGame ws) as (g & Hr & HI & _).
  destruct (run_grows ws' g HI) as (g' & Hr' & HG).
  exists g, g'. split; [exact Hr|]. split; [rewrite run_app, Hr; exact Hr'|].
  split; [exact HG|].
  destruct HI as (HB & _). clear -HB.
  induction HB as [|b0 b l0 l Hb Hl IH]; constructor; auto. apply Hb.
Qed.
